(** * Particle banks of the transport kernel: [bank.cpp]

    A shallow embedding of [src/bank.cpp] (namespace [openmc], globals of
    namespace [simulation]) and the properties of the fission-bank sort,
    the lifecycle functions and the C accessors.

    Conventions of the embedding
    - [int64_t] values are integers of [Z]; additions and subtractions on
      data read from the banks go through [Int64.add] and [Int64.sub], which
      write the two's-complement wrap-around out.
    - [std::vector<T>] is a [list T]; [operator[]] is [vec_get] / [vec_set],
      which fault outside [0, size).  The C++ standard leaves such an access
      undefined; the embedding makes it an observable [Fault].
    - [std::unique_ptr<Bank[]>] is an [option (list Bank)]: [None] is the
      null pointer, [Some buf] an array of [length buf] sites.
    - The globals of [simulation] are the fields of one [State] record that
      every function receives and returns. *)

From Stdlib Require Import ZArith String Lia.
From stdpp Require Import base tactics option list.

Local Open Scope Z_scope.

(** ** 64-bit signed arithmetic *)

Module Int64.

Definition min_int : Z := - 2 ^ 63.
Definition max_int : Z := 2 ^ 63 - 1.

(** The representative of [z] modulo [2^64] in [[-2^63, 2^63)]. *)
Definition wrap (z : Z) : Z := (z + 2 ^ 63) mod 2 ^ 64 - 2 ^ 63.

Definition add (a b : Z) : Z := wrap (a + b).
Definition sub (a b : Z) : Z := wrap (a - b).

Definition in_range (z : Z) : Prop := min_int ≤ z ≤ max_int.

Fixpoint sum (l : list Z) : Z :=
  match l with
  | [] => 0
  | x :: l' => x + sum l'
  end.

End Int64.

(** ** Faults and the error monad *)

Inductive fault : Type :=
  | OutOfRange   (* an index outside [0, size) of a vector or of the bank array *)
  | NullBank     (* the fission bank pointer is null and is dereferenced *)
  | LengthError  (* a negative size given to an allocation *).

Inductive res (A : Type) : Type :=
  | Ok (a : A)
  | Fault (f : fault).
Arguments Ok {A} a.
Arguments Fault {A} f.

#[global] Instance res_ret : MRet res := λ A a, Ok a.
#[global] Instance res_bind : MBind res := λ A B k m,
  match m with
  | Ok a => k a
  | Fault f => Fault f
  end.

(** ** Vectors and arrays indexed by [int64_t] *)

Definition vec_get {A} (v : list A) (i : Z) : res A :=
  if decide (0 ≤ i) then
    match v !! Z.to_nat i with
    | Some x => Ok x
    | None => Fault OutOfRange
    end
  else Fault OutOfRange.

Definition vec_set {A} (v : list A) (i : Z) (x : A) : res (list A) :=
  if decide (0 ≤ i < Z.of_nat (length v)) then Ok (<[Z.to_nat i := x]> v)
  else Fault OutOfRange.

(** [std::vector<T> v(n)] and [std::make_unique<T[]>(n)]: [n] copies of the
    value-initialised element; a negative [n] converts to a size no
    allocation can serve.  Memory has no bound here: a size that the real
    allocation refuses ([bad_array_new_length], [bad_alloc]) is served, so
    an [Ok] of this function says what the call gives when it returns, not
    that it returns. *)
Definition vec_alloc {A} (n : Z) (x0 : A) : res (list A) :=
  if decide (0 ≤ n) then Ok (replicate (Z.to_nat n) x0) else Fault LengthError.

(** [v.resize(n)]: keeps the first [n] elements and appends value-initialised
    ones up to length [n].  As for [vec_alloc], a size beyond [max_size()],
    for which the real call throws [length_error], is served here. *)
Definition vec_resize {A} (v : list A) (n : Z) (x0 : A) : res (list A) :=
  if decide (0 ≤ n) then
    Ok (take (Z.to_nat n) v ++ replicate (Z.to_nat n - length v)%nat x0)
  else Fault LengthError.

(** ** Counted loops: [for (int64_t i = lo; i < hi; i++) body] *)

Fixpoint for_iter {S} (n : nat) (i : Z) (body : Z → S → res S) (s : S) : res S :=
  match n with
  | O => Ok s
  | S n' => s' ← body i s; for_iter n' (i + 1) body s'
  end.

Definition for_loop {S} (lo hi : Z) (body : Z → S → res S) (s : S) : res S :=
  for_iter (Z.to_nat (hi - lo)) lo body s.

(** ** The exclusive scan of [sort_fission_bank] (lines 70-76) *)

(** One pass of the loop body; the state is [(tmp, progeny_per_particle)].
    The counter [i] runs over [[1, size)], so [i - 1] cannot wrap. *)
Definition scan_body (i : Z) (s : Z * list Z) : res (Z * list Z) :=
  let '(tmp, ppp) := s in
  prev ← vec_get ppp (i - 1);
  let value := Int64.add prev tmp in
  tmp' ← vec_get ppp i;
  ppp' ← vec_set ppp i value;
  mret (tmp', ppp').

Definition scan_loop (ppp : list Z) : res (list Z) :=
  tmp ← vec_get ppp 0;
  ppp0 ← vec_set ppp 0 0;
  r ← for_loop 1 (Z.of_nat (length ppp0)) scan_body (tmp, ppp0);
  mret (r.2).

(** The reference the loop is compared with: [std::exclusive_scan] with
    initial value [0] over [int64_t], entry [i] being the sum of the entries
    before [i], accumulated left to right with the machine addition. *)
Fixpoint exclusive_scan_from (acc : Z) (l : list Z) : list Z :=
  match l with
  | [] => []
  | x :: l' => acc :: exclusive_scan_from (Int64.add acc x) l'
  end.

Definition exclusive_scan (l : list Z) : list Z := exclusive_scan_from 0 l.

(** The offsets in the words of the specification: entry [i] is the sum, in
    the integers, of the original counts at the indices below [i]. *)
Definition prefix_sums (l : list Z) : list Z :=
  (λ i : nat, Int64.sum (take i l)) <$> seq 0 (length l).

(** ** Data model *)

Section Bank.

(** The physics fields of [Particle::Bank] (weight, position, direction,
    energy, ...) are declared in a header outside this file and are never
    read here: they are one opaque payload. *)
Context {Payload : Type}.

Record Bank : Type := mkBank {
  parent_id : Z;
  progeny_id : Z;
  payload : Payload
}.

(** The value-initialised [Particle::Bank] that fills fresh arrays. *)
Variable site0 : Bank.

(** [OPENMC_E_ALLOCATE], declared in [openmc/capi.h]. *)
Variable OPENMC_E_ALLOCATE : Z.

(** The globals of namespace [simulation], with the two globals this file
    reads or writes that other translation units own: [work_per_rank]
    ([openmc/simulation.h]) and the message buffer written by
    [set_errmsg] ([openmc/error.h]). *)
Record State : Type := mkState {
  source_bank : list Bank;
  fission_bank : option (list Bank);
  fission_bank_length : Z;
  fission_bank_max : Z;
  progeny_per_particle : list Z;
  work_per_rank : Z;
  errmsg : string
}.

Definition set_source_bank (v : list Bank) (st : State) : State :=
  mkState v (fission_bank st) (fission_bank_length st) (fission_bank_max st)
          (progeny_per_particle st) (work_per_rank st) (errmsg st).
Definition set_fission_bank (v : option (list Bank)) (st : State) : State :=
  mkState (source_bank st) v (fission_bank_length st) (fission_bank_max st)
          (progeny_per_particle st) (work_per_rank st) (errmsg st).
Definition set_fission_bank_length (v : Z) (st : State) : State :=
  mkState (source_bank st) (fission_bank st) v (fission_bank_max st)
          (progeny_per_particle st) (work_per_rank st) (errmsg st).
Definition set_fission_bank_max (v : Z) (st : State) : State :=
  mkState (source_bank st) (fission_bank st) (fission_bank_length st) v
          (progeny_per_particle st) (work_per_rank st) (errmsg st).
Definition set_progeny_per_particle (v : list Z) (st : State) : State :=
  mkState (source_bank st) (fission_bank st) (fission_bank_length st)
          (fission_bank_max st) v (work_per_rank st) (errmsg st).
(** Modelled from the spec: [set_errmsg] is defined with the error facility
    of [openmc/error.h], outside this file; the spec has a failure
    communicated through a shared error-message channel, which is the field
    [errmsg] here. *)
Definition set_errmsg (v : string) (st : State) : State :=
  mkState (source_bank st) (fission_bank st) (fission_bank_length st)
          (fission_bank_max st) (progeny_per_particle st) (work_per_rank st) v.

(** [fission_bank[i]], read and written through the owning pointer. *)
Definition bank_get (fb : option (list Bank)) (i : Z) : res Bank :=
  match fb with
  | Some buf => vec_get buf i
  | None => Fault NullBank
  end.

Definition bank_set (fb : option (list Bank)) (i : Z) (x : Bank)
  : res (option (list Bank)) :=
  match fb with
  | Some buf => buf' ← vec_set buf i x; mret (Some buf')
  | None => Fault NullBank
  end.

(** ** Lifecycle *)

(** [free_memory_bank] (lines 40-45). *)
Definition free_memory_bank (st : State) : State :=
  set_fission_bank_length 0 (set_fission_bank None (set_source_bank [] st)).

(** [init_fission_bank] (lines 47-53). *)
Definition init_fission_bank (max : Z) (st : State) : res State :=
  let st1 := set_fission_bank_max max st in
  buf ← vec_alloc max site0;
  let st2 := set_fission_bank (Some buf) st1 in
  let st3 := set_fission_bank_length 0 st2 in
  ppp ← vec_resize (progeny_per_particle st3) (work_per_rank st3) 0;
  mret (set_progeny_per_particle ppp st3).

(** ** The sort (lines 61-95) *)

(** Body of the scatter loop (lines 85-89); the loop state is
    [sorted_bank]. *)
Definition scatter_body (fb : option (list Bank)) (ppp : list Z)
    (i : Z) (sorted_bank : list Bank) : res (list Bank) :=
  site ← bank_get fb i;
  off ← vec_get ppp (Int64.sub (parent_id site) 1);
  let idx := Int64.add off (progeny_id site) in
  vec_set sorted_bank idx site.

(** Body of the copy-back loop (lines 92-94); the loop state is the
    fission bank. *)
Definition copy_body (sorted_bank : list Bank)
    (i : Z) (fb : option (list Bank)) : res (option (list Bank)) :=
  x ← vec_get sorted_bank i;
  bank_set fb i x.

Definition sort_fission_bank (st : State) : res State :=
  if decide (length (progeny_per_particle st) = 0%nat) then Ok st
  else
    ppp ← scan_loop (progeny_per_particle st);
    let st1 := set_progeny_per_particle ppp st in
    sorted0 ← vec_alloc (fission_bank_length st1) site0;
    sorted_bank ← for_loop 0 (fission_bank_length st1)
                    (scatter_body (fission_bank st1) ppp) sorted0;
    fb ← for_loop 0 (fission_bank_length st1)
           (copy_body sorted_bank) (fission_bank st1);
    mret (set_fission_bank fb st1).

(** ** C API (lines 101-123) *)

(** What a [void*] handed to the caller designates. *)
Inductive pointer : Type :=
  | NullPtr
  | SourceBankData
  | FissionBankData
  | Foreign (addr : Z).

(** The caller's [*ptr] and [*n]. *)
Record Out : Type := mkOut { out_ptr : pointer; out_n : Z }.

(** [fission_bank.get()]. *)
Definition fission_bank_get (st : State) : pointer :=
  match fission_bank st with
  | Some _ => FissionBankData
  | None => NullPtr
  end.

(** Each accessor returns the status code, the state and the caller's
    outputs. *)
Definition openmc_source_bank (st : State) (out : Out) : Z * State * Out :=
  if decide (length (source_bank st) = 0%nat) then
    (OPENMC_E_ALLOCATE, set_errmsg "Source bank has not been allocated." st, out)
  else
    (0, st, mkOut SourceBankData (Z.of_nat (length (source_bank st)))).

Definition openmc_fission_bank (st : State) (out : Out) : Z * State * Out :=
  if decide (fission_bank_length st = 0) then
    (OPENMC_E_ALLOCATE, set_errmsg "Fission bank has not been allocated." st, out)
  else
    (0, st, mkOut (fission_bank_get st) (fission_bank_length st)).

(** ** Appending a site

    Modelled from the spec: [FissionBank.append] (section 4.1) is called
    by the transport code and is not part of [bank.cpp].  The spec has it
    reserve the next free slot by a fetch-and-increment of the shared
    length and write the site there, and has the reference behaviour
    detect a reserved index [>= capacity] and report it instead of
    writing.  The capacity is [fission_bank_max]; a reported overflow
    leaves the bank as it was, which keeps [length <= capacity]. *)
Inductive append_result : Type :=
  | Appended (idx : Z) (st : State)
  | CapacityError (st : State).

Definition append (site : Bank) (st : State) : append_result :=
  let idx := fission_bank_length st in
  if decide (fission_bank_max st ≤ idx) then CapacityError st
  else
    Appended idx
      (set_fission_bank_length (idx + 1)
         (set_fission_bank (<[Z.to_nat idx := site]> <$> fission_bank st) st)).

(** ** The live region and the lineage invariant *)

(** The cells of the array behind [fission_bank]; none behind a null
    pointer. *)
Definition bank_cells (st : State) : list Bank := default [] (fission_bank st).

(** The sites in [[0, fission_bank_length)]. *)
Definition live_sites (st : State) : list Bank :=
  take (Z.to_nat (fission_bank_length st)) (bank_cells st).

(** The [progeny_id]s banked for source particle [p] (1-based), in bank
    order. *)
Definition progeny_ids_of (p : Z) (sites : list Bank) : list Z :=
  progeny_id <$> filter (λ s, parent_id s = p) sites.

(** Every site names one of the [length counts] source particles, and the
    [progeny_id]s of particle [i + 1] are [0, ..., c - 1], each once,
    where [c] is the count at index [i]. *)
Definition lineage_invariant (sites : list Bank) (counts : list Z) : Prop :=
  (∀ s, s ∈ sites → 1 ≤ parent_id s ≤ Z.of_nat (length counts)) ∧
  (∀ (i : nat) (c : Z), counts !! i = Some c →
     0 ≤ c ∧ progeny_ids_of (Z.of_nat i + 1) sites ≡ₚ seqZ 0 c).

(** The invariant as a check over the sites and the counter indices. *)
Definition lineage_bounded (sites : list Bank) (counts : list Z) : Prop :=
  Forall (λ s, 1 ≤ parent_id s ≤ Z.of_nat (length counts)) sites ∧
  Forall (λ i : nat,
            match counts !! i with
            | Some c => 0 ≤ c ∧ progeny_ids_of (Z.of_nat i + 1) sites ≡ₚ seqZ 0 c
            | None => True
            end) (seq 0 (length counts)).

(** The index the sort gives a site: the counts of the source particles
    before its parent, plus its [progeny_id]. *)
Definition canonical_index (counts : list Z) (p j : Z) : Z :=
  Int64.sum (take (Z.to_nat (p - 1)) counts) + j.

Definition canonical_dest (counts : list Z) (s : Bank) : Z :=
  canonical_index counts (parent_id s) (progeny_id s).

(** The two reads and the write of the scatter loop stay in range for the
    site [s]: [parent_id - 1] indexes the offsets and the index computed
    from the offset lies in [[0, len)]. *)
Definition in_bounds (offsets : list Z) (len : Z) (s : Bank) : Prop :=
  match vec_get offsets (Int64.sub (parent_id s) 1) with
  | Ok off => 0 ≤ Int64.add off (progeny_id s) < len
  | Fault _ => False
  end.

(** The order of the sorted bank: by parent, then by progeny number. *)
Definition lineage_lt (s1 s2 : Bank) : Prop :=
  parent_id s1 < parent_id s2 ∨
  (parent_id s1 = parent_id s2 ∧ progeny_id s1 < progeny_id s2).

(** Every [int64_t] of the state holds a 64-bit value. *)
Definition bank_typed (s : Bank) : Prop :=
  Int64.in_range (parent_id s) ∧ Int64.in_range (progeny_id s).

Definition state_typed (st : State) : Prop :=
  Int64.in_range (fission_bank_length st) ∧
  Int64.in_range (fission_bank_max st) ∧
  Int64.in_range (work_per_rank st) ∧
  Forall Int64.in_range (progeny_per_particle st) ∧
  Forall bank_typed (source_bank st) ∧
  Forall bank_typed (bank_cells st).

(** What the driver guarantees when it calls the sort: the live region
    lies inside the array and satisfies the lineage invariant for the
    counts in [progeny_per_particle]. *)
Record sort_ready (st : State) : Prop := mkSortReady {
  ready_typed : state_typed st;
  ready_length : 0 ≤ fission_bank_length st ≤ Z.of_nat (length (bank_cells st));
  ready_lineage : lineage_invariant (live_sites st) (progeny_per_particle st)
}.

End Bank.

(** ** Concrete banks

    Sites whose payload is a number, used to run the code on examples. *)

Definition site0Z : @Bank Z := mkBank 0 0 0.

(** Three source particles with counts 2, 0, 1; particle 3 banked its site
    first, particle 1 banked its second progeny before its first.  The bank
    has room for four sites. *)
Definition scenario : @State Z :=
  mkState [] (Some [mkBank 3 0 30; mkBank 1 1 11; mkBank 1 0 10; site0Z])
          3 4 [2; 0; 1] 3 "".

(** The same sites banked in another order. *)
Definition scenario_reordered : @State Z :=
  mkState [] (Some [mkBank 1 0 10; mkBank 3 0 30; mkBank 1 1 11; site0Z])
          3 4 [2; 0; 1] 3 "".

(** Two sites that both claim to be progeny 0 of source particle 1, in the
    two possible orders. *)
Definition clash_ab : @State Z :=
  mkState [] (Some [mkBank 1 0 7; mkBank 1 0 8]) 2 2 [2] 1 "".
Definition clash_ba : @State Z :=
  mkState [] (Some [mkBank 1 0 8; mkBank 1 0 7]) 2 2 [2] 1 "".

(** A bank of capacity 2 that holds two sites, and a state with a source
    bank and nothing banked. *)
Definition full_bank : @State Z :=
  mkState [] (Some [mkBank 1 0 7; mkBank 1 1 8]) 2 2 [2] 1 "".
Definition sourced : @State Z :=
  mkState [mkBank 0 0 1; mkBank 0 0 2] None 0 0 [] 2 "".

(** * Properties *)

(** ** 64-bit arithmetic *)

Module Int64Facts.
Import Int64.

Lemma wrap_id z : in_range z → wrap z = z.
Proof.
  unfold in_range, min_int, max_int, wrap. intros Hz.
  rewrite Z.mod_small; lia.
Qed.

Lemma wrap_in_range z : in_range (wrap z).
Proof.
  unfold in_range, min_int, max_int, wrap.
  pose proof (Z.mod_pos_bound (z + 2 ^ 63) (2 ^ 64)). lia.
Qed.

Lemma wrap_add_l a b : wrap (wrap a + b) = wrap (a + b).
Proof.
  unfold wrap. f_equal.
  replace ((a + 2 ^ 63) mod 2 ^ 64 - 2 ^ 63 + b + 2 ^ 63)
    with ((a + 2 ^ 63) mod 2 ^ 64 + b) by lia.
  rewrite Zplus_mod_idemp_l. f_equal. lia.
Qed.

Lemma add_wrap_l a b : add (wrap a) b = wrap (a + b).
Proof. apply wrap_add_l. Qed.

Lemma sum_app l1 l2 : sum (l1 ++ l2) = sum l1 + sum l2.
Proof. induction l1 as [|x l1 IH]; simpl; lia. Qed.

Lemma sum_nonneg l : Forall (λ c, 0 ≤ c) l → 0 ≤ sum l.
Proof. induction 1; simpl; lia. Qed.

Lemma sum_take_le l i : Forall (λ c, 0 ≤ c) l → 0 ≤ sum (take i l) ≤ sum l.
Proof.
  intros Hl. rewrite <-(take_drop i l) at 3. rewrite sum_app.
  pose proof (sum_nonneg (take i l) (Forall_take _ _ _ Hl)).
  pose proof (sum_nonneg (drop i l) (Forall_drop _ _ _ Hl)). lia.
Qed.

End Int64Facts.

(** ** The error monad, vectors and loops *)

Section Vec.
Context {A : Type}.
Implicit Types (v : list A) (x : A).

Lemma vec_get_Ok v (n : nat) x : v !! n = Some x → vec_get v (Z.of_nat n) = Ok x.
Proof.
  intros Hn. unfold vec_get. rewrite decide_True by lia.
  by rewrite Nat2Z.id, Hn.
Qed.

Lemma vec_set_Ok v (n : nat) x :
  (n < length v)%nat → vec_set v (Z.of_nat n) x = Ok (<[n := x]> v).
Proof.
  intros Hn. unfold vec_set. rewrite decide_True by lia. by rewrite Nat2Z.id.
Qed.

End Vec.

Lemma res_bind_Ok {A B} (k : A → res B) (a : A) : Ok a ≫= k = k a.
Proof. reflexivity. Qed.

Lemma for_iter_S {S} n i (body : Z → S → res S) s :
  for_iter (Datatypes.S n) i body s = body i s ≫= for_iter n (i + 1) body.
Proof. reflexivity. Qed.

Lemma for_loop_unfold {S} lo hi (body : Z → S → res S) s :
  for_loop lo hi body s = for_iter (Z.to_nat (hi - lo)) lo body s.
Proof. reflexivity. Qed.

(** ** The exclusive scan *)

Section Scan.
Import Int64 Int64Facts.

(** The loop at counter [length done + 1]: the entries before the counter
    are final, [a] is the last of them and [tmp] the original count at
    its index. *)
Lemma scan_iter rest : ∀ done a tmp,
  ∃ tmp', for_iter (length rest) (Z.of_nat (length done) + 1) scan_body
            (tmp, done ++ a :: rest)
          = Ok (tmp', done ++ a :: exclusive_scan_from (add a tmp) rest).
Proof.
  induction rest as [|x rest IH]; intros done a tmp; simpl.
  - by eexists.
  - replace (Z.of_nat (length done) + 1 - 1) with (Z.of_nat (length done)) by lia.
    rewrite (vec_get_Ok _ _ a) by (by apply list_lookup_middle). simpl.
    replace (Z.of_nat (length done) + 1) with (Z.of_nat (length (done ++ [a])))
      by (rewrite length_app; simpl; lia).
    rewrite (cons_middle a done (x :: rest)), (assoc_L (++)).
    rewrite (vec_get_Ok _ _ x) by (by apply list_lookup_middle). simpl.
    rewrite vec_set_Ok by (rewrite !length_app; simpl; lia). simpl.
    rewrite (insert_app_r_alt (done ++ [a])), Nat.sub_diag by lia. simpl.
    destruct (IH (done ++ [a]) (add a tmp) x) as [tmp' Htmp'].
    exists tmp'. rewrite Htmp'. by rewrite <-(assoc_L (++)).
Qed.

Lemma scan_loop_exclusive_scan ppp :
  ppp ≠ [] → scan_loop ppp = Ok (exclusive_scan ppp).
Proof.
  destruct ppp as [|x rest]; [done|]. intros _.
  unfold scan_loop, exclusive_scan. simpl.
  rewrite for_loop_unfold. simpl length.
  replace (Z.to_nat (Z.of_nat (S (length rest)) - 1)) with (length rest) by lia.
  destruct (scan_iter rest [] 0 x) as [tmp' H].
  change (Z.of_nat (length []) + 1) with 1 in H. simpl in H.
  by rewrite H.
Qed.

Lemma length_exclusive_scan_from acc l :
  length (exclusive_scan_from acc l) = length l.
Proof. revert acc. induction l; intros; simpl; auto. Qed.

Lemma lookup_exclusive_scan_from l : ∀ acc (i : nat),
  (i < length l)%nat →
  exclusive_scan_from (wrap acc) l !! i = Some (wrap (acc + sum (take i l))).
Proof.
  induction l as [|x l IH]; intros acc i Hi; simpl in *; [lia|].
  destruct i as [|i]; simpl.
  - by rewrite Z.add_0_r.
  - rewrite add_wrap_l, IH by lia. do 2 f_equal. lia.
Qed.

Lemma lookup_exclusive_scan l (i : nat) :
  (i < length l)%nat → exclusive_scan l !! i = Some (wrap (sum (take i l))).
Proof.
  intros Hi. unfold exclusive_scan.
  change 0 with (wrap 0) at 1. by rewrite lookup_exclusive_scan_from.
Qed.

End Scan.

Lemma Permutation_of_eq {A} (l k : list A) : l = k → l ≡ₚ k.
Proof. by intros ->. Qed.

(** ** The lineage invariant *)

Section Lineage.
Context {Payload : Type}.
Implicit Types (s : @Bank Payload) (sites : list (@Bank Payload)).
Implicit Types (counts : list Z).
Import Int64 Int64Facts.

Lemma lineage_counts_nonneg sites counts :
  lineage_invariant sites counts → Forall (λ c, 0 ≤ c) counts.
Proof.
  intros [_ Hprog]. apply Forall_lookup. intros i c Hi.
  by destruct (Hprog i c Hi).
Qed.

Lemma progeny_ids_of_elem s sites :
  s ∈ sites → progeny_id s ∈ progeny_ids_of (parent_id s) sites.
Proof.
  intros Hs. unfold progeny_ids_of. apply list_elem_of_fmap_2.
  by apply list_elem_of_filter.
Qed.

Lemma lineage_site_range sites counts s :
  lineage_invariant sites counts → s ∈ sites →
  1 ≤ parent_id s ≤ Z.of_nat (length counts) ∧
  ∃ c, counts !! Z.to_nat (parent_id s - 1) = Some c ∧ 0 ≤ progeny_id s < c.
Proof.
  intros [Hpar Hprog] Hs. pose proof (Hpar s Hs) as Hp. split; [done|].
  destruct (lookup_lt_is_Some_2 counts (Z.to_nat (parent_id s - 1))) as [c Hc];
    [lia|].
  exists c. split; [done|].
  destruct (Hprog _ _ Hc) as [_ Hperm].
  replace (Z.of_nat (Z.to_nat (parent_id s - 1)) + 1) with (parent_id s)
    in Hperm by lia.
  pose proof (progeny_ids_of_elem s sites Hs) as Hin.
  rewrite Hperm in Hin. apply elem_of_seqZ in Hin. lia.
Qed.

Lemma lineage_site_exists sites counts (i : nat) c j :
  lineage_invariant sites counts → counts !! i = Some c → 0 ≤ j < c →
  ∃ s, s ∈ sites ∧ parent_id s = Z.of_nat i + 1 ∧ progeny_id s = j.
Proof.
  intros [_ Hprog] Hi Hj. destruct (Hprog i c Hi) as [_ Hperm].
  assert (j ∈ progeny_ids_of (Z.of_nat i + 1) sites) as Hin.
  { rewrite Hperm. apply elem_of_seqZ. lia. }
  unfold progeny_ids_of in Hin.
  apply list_elem_of_fmap in Hin as (s & -> & Hs).
  apply list_elem_of_filter in Hs as [Hp Hs]. by exists s.
Qed.

Lemma lineage_Permutation sites sites' counts :
  sites ≡ₚ sites' → lineage_invariant sites counts →
  lineage_invariant sites' counts.
Proof.
  intros Hperm [Hpar Hprog]. split.
  - intros s Hs. apply Hpar. by rewrite Hperm.
  - intros i c Hi. destruct (Hprog i c Hi) as [Hc Hids]. split; [done|].
    unfold progeny_ids_of in *. by rewrite <-Hperm.
Qed.

(** Dropping the sites of the last source particle leaves a bank that
    satisfies the invariant for the counts without the last. *)
Lemma lineage_drop_last sites cs c :
  lineage_invariant sites (cs ++ [c]) →
  lineage_invariant
    (filter (λ s, ¬ parent_id s = Z.of_nat (length cs) + 1) sites) cs.
Proof.
  intros [Hpar Hprog]. split.
  - intros s [Hne Hs]%list_elem_of_filter.
    specialize (Hpar s Hs). rewrite length_app in Hpar. simpl in Hpar. lia.
  - intros i c' Hi. pose proof (lookup_lt_Some _ _ _ Hi) as Hlt.
    destruct (Hprog i c') as [Hc Hids]; [by apply lookup_app_l_Some|].
    split; [done|]. rewrite <-Hids. unfold progeny_ids_of.
    rewrite list_filter_filter.
    by rewrite (list_filter_iff _ (λ s, parent_id s = Z.of_nat i + 1))
      by (intros s; lia).
Qed.

(** The canonical destinations of the sites are [0, ..., n - 1], each
    once, where [n] is the sum of the counts. *)
Lemma canonical_dest_layout counts : ∀ sites,
  lineage_invariant sites counts →
  canonical_dest counts <$> sites ≡ₚ seqZ 0 (sum counts).
Proof.
  induction counts as [|c cs IH] using rev_ind; intros sites Hinv.
  - destruct sites as [|s sites]; [done|].
    destruct Hinv as [Hpar _].
    specialize (Hpar s (list_elem_of_here _ _)). simpl in Hpar. lia.
  - pose proof (lineage_counts_nonneg _ _ Hinv) as Hnn.
    apply Forall_app in Hnn as [Hcs Hc]. rewrite Forall_singleton in Hc.
    pose proof (sum_nonneg cs Hcs) as Hsum.
    pose proof (lineage_drop_last _ _ _ Hinv) as Hrest.
    destruct Hinv as [Hpar Hprog].
    destruct (Hprog (length cs) c) as [_ Hlast]; [by apply list_lookup_middle|].
    set (P := λ s : @Bank Payload, parent_id s = Z.of_nat (length cs) + 1) in *.
    rewrite <-(filter_app_complement P sites) at 1.
    rewrite fmap_app, sum_app. simpl. rewrite Z.add_0_r.
    rewrite seqZ_app by done. rewrite (comm (++)).
    apply Permutation_app.
    + rewrite <-(IH _ Hrest). apply Permutation_of_eq, list_fmap_ext.
      intros i s Hs. apply list_elem_of_lookup_2 in Hs.
      apply list_elem_of_filter in Hs as [Hne Hs].
      specialize (Hpar s Hs). rewrite length_app in Hpar. simpl in Hpar.
      unfold canonical_dest, canonical_index, P in *.
      rewrite take_app_le by lia. done.
    + rewrite Z.add_0_l, <-(Z.add_0_r (sum cs)) at 1.
      rewrite <-fmap_add_seqZ, <-Hlast. unfold progeny_ids_of.
      rewrite <-list_fmap_compose. apply Permutation_of_eq, list_fmap_ext.
      intros i s Hs. apply list_elem_of_lookup_2 in Hs.
      apply list_elem_of_filter in Hs as [HP Hs].
      unfold canonical_dest, canonical_index, P in *. simpl.
      rewrite HP, take_app_length' by lia. done.
Qed.

Lemma lineage_length sites counts :
  lineage_invariant sites counts →
  0 ≤ sum counts ∧ Z.of_nat (length sites) = sum counts.
Proof.
  intros Hinv.
  pose proof (sum_nonneg _ (lineage_counts_nonneg _ _ Hinv)) as Hsum.
  split; [done|].
  pose proof (canonical_dest_layout _ _ Hinv) as Hperm.
  apply Permutation_length in Hperm.
  rewrite length_fmap, length_seqZ in Hperm. lia.
Qed.

Lemma canonical_dest_range sites counts s :
  lineage_invariant sites counts → s ∈ sites →
  0 ≤ canonical_dest counts s < Z.of_nat (length sites).
Proof.
  intros Hinv Hs. destruct (lineage_length _ _ Hinv) as [_ ->].
  assert (canonical_dest counts s ∈ canonical_dest counts <$> sites) as Hin
    by by apply list_elem_of_fmap_2.
  rewrite (canonical_dest_layout _ _ Hinv) in Hin.
  apply elem_of_seqZ in Hin. lia.
Qed.

Lemma canonical_dest_NoDup sites counts :
  lineage_invariant sites counts → NoDup (canonical_dest counts <$> sites).
Proof.
  intros Hinv. rewrite (canonical_dest_layout _ _ Hinv). apply NoDup_seqZ.
Qed.

End Lineage.

(** ** Deciding readiness *)

Section Decide.
Context {Payload : Type}.
Implicit Types (s : @Bank Payload) (st : @State Payload).
Implicit Types (sites : list (@Bank Payload)) (counts : list Z).

#[global] Instance bank_eq_dec `{EqDecision Payload} :
  EqDecision (@Bank Payload).
Proof. solve_decision. Defined.

#[global] Instance in_range_dec z : Decision (Int64.in_range z).
Proof. unfold Int64.in_range. apply _. Defined.

#[global] Instance bank_typed_dec s : Decision (bank_typed s).
Proof. unfold bank_typed. apply _. Defined.

#[global] Instance state_typed_dec st : Decision (state_typed st).
Proof. unfold state_typed. apply _. Defined.

#[global] Instance lineage_bounded_dec sites counts :
  Decision (lineage_bounded sites counts).
Proof.
  unfold lineage_bounded. apply and_dec; [apply _|].
  apply Forall_dec. intros i. destruct (counts !! i); apply _.
Defined.

Lemma lineage_bounded_iff sites counts :
  lineage_bounded sites counts ↔ lineage_invariant sites counts.
Proof.
  unfold lineage_bounded, lineage_invariant.
  rewrite !Forall_forall. split; intros [Hpar Hprog]; (split; [done|]).
  - intros i c Hi. specialize (Hprog i). rewrite Hi in Hprog.
    apply Hprog, elem_of_seq. apply lookup_lt_Some in Hi. lia.
  - intros i _. destruct (counts !! i) eqn:Hi; [|done]. by apply Hprog.
Qed.

#[global] Instance lineage_invariant_dec sites counts :
  Decision (lineage_invariant sites counts) :=
  match decide (lineage_bounded sites counts) with
  | left H => left (proj1 (lineage_bounded_iff sites counts) H)
  | right H => right (λ H', H (proj2 (lineage_bounded_iff sites counts) H'))
  end.

Lemma sort_ready_iff st :
  sort_ready st ↔
  state_typed st ∧
  0 ≤ fission_bank_length st ≤ Z.of_nat (length (bank_cells st)) ∧
  lineage_invariant (live_sites st) (progeny_per_particle st).
Proof.
  split.
  - intros [Htyped Hlen Hinv]. exact (conj Htyped (conj Hlen Hinv)).
  - intros (Htyped & Hlen & Hinv). by constructor.
Qed.

#[global] Instance sort_ready_dec st : Decision (sort_ready st) :=
  match decide (state_typed st ∧
                0 ≤ fission_bank_length st ≤ Z.of_nat (length (bank_cells st)) ∧
                lineage_invariant (live_sites st) (progeny_per_particle st)) with
  | left H => left (proj2 (sort_ready_iff st) H)
  | right H => right (λ H', H (proj1 (sort_ready_iff st) H'))
  end.

End Decide.

(** ** The loops of the sort *)

Section SortLoops.
Context {Payload : Type}.
Implicit Types (s : @Bank Payload) (sites todo pre post : list (@Bank Payload)).

Lemma scatter_body_at buf ppp (i : nat) s off sorted :
  buf !! i = Some s →
  vec_get ppp (Int64.sub (parent_id s) 1) = Ok off →
  scatter_body (Some buf) ppp (Z.of_nat i) sorted
  = vec_set sorted (Int64.add off (progeny_id s)) s.
Proof.
  intros Hi Hoff. unfold scatter_body. simpl.
  rewrite (vec_get_Ok _ _ _ Hi). simpl. by rewrite Hoff.
Qed.

Lemma copy_body_at sorted buf (i : nat) s :
  sorted !! i = Some s → (i < length buf)%nat →
  copy_body sorted (Z.of_nat i) (Some buf) = Ok (Some (<[i := s]> buf)).
Proof.
  intros Hi Hlt. unfold copy_body. rewrite (vec_get_Ok _ _ _ Hi). simpl.
  by rewrite vec_set_Ok.
Qed.

(** The scatter loop over the sites [todo] that follow [pre] in the bank,
    when the code computes the index [dest s] for each of them, inside
    [sorted_bank], and no two of them share an index. *)
Lemma scatter_iter ppp (dest : @Bank Payload → Z) : ∀ todo pre post sorted,
  (∀ s, s ∈ todo →
     ∃ off, vec_get ppp (Int64.sub (parent_id s) 1) = Ok off ∧
            Int64.add off (progeny_id s) = dest s ∧
            0 ≤ dest s < Z.of_nat (length sorted)) →
  NoDup (dest <$> todo) →
  ∃ r, for_iter (length todo) (Z.of_nat (length pre))
         (scatter_body (Some (pre ++ todo ++ post)) ppp) sorted = Ok r ∧
       length r = length sorted ∧
       (∀ s, s ∈ todo → r !! Z.to_nat (dest s) = Some s) ∧
       (∀ d : nat, Z.of_nat d ∉ dest <$> todo → r !! d = sorted !! d).
Proof.
  induction todo as [|s todo IH]; intros pre post sorted Hplace Hnd.
  - exists sorted. split_and!; [done..| |done].
    intros s Hs. by apply not_elem_of_nil in Hs.
  - destruct (Hplace s) as (off & Hoff & Hidx & Hrange); [by left|].
    csimpl in Hnd. apply NoDup_cons in Hnd as [Hnotin Hnd].
    destruct (IH (pre ++ [s]) post (<[Z.to_nat (dest s) := s]> sorted))
      as (r & Hr & Hlen & Hin & Hout); [|done|].
    { intros s' Hs'. destruct (Hplace s') as (off' & ? & ? & ?); [by right|].
      exists off'. by rewrite length_insert. }
    exists r. split_and!.
    + cbn [length]. rewrite for_iter_S.
      rewrite (scatter_body_at _ _ _ s off) by (by apply list_lookup_middle || done).
      rewrite Hidx. unfold vec_set. rewrite decide_True by done.
      rewrite res_bind_Ok, <-Hr, length_app, <-(assoc_L (++)). simpl.
      by replace (Z.of_nat (length pre + 1)) with (Z.of_nat (length pre) + 1) by lia.
    + by rewrite Hlen, length_insert.
    + intros s' [->|Hs']%elem_of_cons; [|by apply Hin].
      rewrite Hout by (by rewrite Z2Nat.id by lia).
      apply list_lookup_insert_eq. lia.
    + intros d Hd. rewrite fmap_cons, not_elem_of_cons in Hd.
      destruct Hd as [Hne Hd]. rewrite Hout by done.
      apply list_lookup_insert_ne. lia.
Qed.

(** The copy-back loop over the entries [todo] of [sorted_bank] that
    follow [done], onto the cells [old] of the bank. *)
Lemma copy_iter : ∀ (todo done old tail : list (@Bank Payload)),
  length old = length todo →
  for_iter (length todo) (Z.of_nat (length done)) (copy_body (done ++ todo))
    (Some (done ++ old ++ tail))
  = Ok (Some (done ++ todo ++ tail)).
Proof.
  induction todo as [|x todo IH]; intros done old tail Hlen.
  - by destruct old.
  - destruct old as [|y old]; [done|]. simpl in Hlen.
    cbn [length]. rewrite for_iter_S.
    rewrite (copy_body_at _ _ _ x)
      by (by apply list_lookup_middle || (rewrite length_app; simpl; lia)).
    rewrite res_bind_Ok.
    rewrite (insert_app_r_alt done), Nat.sub_diag by lia. simpl.
    specialize (IH (done ++ [x]) old tail). rewrite length_app in IH.
    simpl in IH. rewrite <-!(assoc_L (++)) in IH. simpl in IH.
    replace (Z.of_nat (length done + 1)) with (Z.of_nat (length done) + 1)
      in IH by lia.
    apply IH. lia.
Qed.

End SortLoops.

(** ** The sort on a ready state *)

Section SortRun.
Context {Payload : Type} (site0 : @Bank Payload).
Implicit Types (s : @Bank Payload) (st : @State Payload).
Import Int64 Int64Facts.

Lemma live_sites_length st :
  0 ≤ fission_bank_length st ≤ Z.of_nat (length (bank_cells st)) →
  Z.of_nat (length (live_sites st)) = fission_bank_length st.
Proof. intros Hlen. unfold live_sites. rewrite length_take. lia. Qed.

Lemma live_sites_typed st s :
  state_typed st → s ∈ live_sites st → bank_typed s.
Proof.
  intros (_ & _ & _ & _ & _ & Hcells) Hs.
  rewrite Forall_forall in Hcells. apply Hcells.
  by apply (subseteq_take (Z.to_nat (fission_bank_length st))).
Qed.

(** On a ready state the code computes [canonical_dest] for every live
    site: neither the subtraction nor the addition wraps, and the offset
    read from the scanned counters is the sum of the counts before the
    parent. *)
Lemma sort_ready_place st s :
  sort_ready st → s ∈ live_sites st →
  ∃ off,
    vec_get (exclusive_scan (progeny_per_particle st))
      (sub (parent_id s) 1) = Ok off ∧
    add off (progeny_id s) = canonical_dest (progeny_per_particle st) s ∧
    0 ≤ canonical_dest (progeny_per_particle st) s < fission_bank_length st.
Proof.
  intros [Htyped Hlen Hinv] Hs.
  pose proof (live_sites_length st Hlen) as Hn.
  destruct (lineage_site_range _ _ s Hinv Hs) as [Hp (c & Hc & Hj)].
  destruct (live_sites_typed st s Htyped Hs) as [Hpt _].
  pose proof (canonical_dest_range _ _ s Hinv Hs) as Hd.
  destruct (lineage_length _ _ Hinv) as [_ Hsum].
  pose proof (sum_take_le (progeny_per_particle st)
                (Z.to_nat (parent_id s - 1))
                (lineage_counts_nonneg _ _ Hinv)) as Hoff.
  destruct Htyped as [Hlt _].
  unfold in_range, min_int, max_int in *.
  exists (sum (take (Z.to_nat (parent_id s - 1)) (progeny_per_particle st))).
  split_and!; [| |lia..].
  - unfold sub. rewrite wrap_id by (unfold in_range, min_int, max_int; lia).
    rewrite <-(Z2Nat.id (parent_id s - 1)) at 1 by lia.
    apply vec_get_Ok.
    rewrite lookup_exclusive_scan by (by eapply lookup_lt_Some).
    f_equal. apply wrap_id. unfold in_range, min_int, max_int. lia.
  - unfold add. apply wrap_id. unfold in_range, min_int, max_int.
    unfold canonical_dest, canonical_index in *. lia.
Qed.

(** The whole run: the counters become their exclusive scan and the live
    region becomes a list [r] that holds every live site at its canonical
    destination; the cells behind the live region stay. *)
Lemma sort_ready_run st :
  sort_ready st →
  ∃ r,
    sort_fission_bank site0 st
    = Ok (set_fission_bank
            ((λ buf, r ++ drop (length r) buf) <$> fission_bank st)
            (set_progeny_per_particle
               (exclusive_scan (progeny_per_particle st)) st)) ∧
    Z.of_nat (length r) = fission_bank_length st ∧
    (∀ s, s ∈ live_sites st →
       r !! Z.to_nat (canonical_dest (progeny_per_particle st) s) = Some s).
Proof.
  intros Hready. pose proof Hready as [Htyped Hlen Hinv].
  pose proof (live_sites_length st Hlen) as Hn.
  destruct (lineage_length _ _ Hinv) as [_ Hsum].
  destruct (decide (length (progeny_per_particle st) = 0%nat)) as [Hk|Hk].
  { apply nil_length_inv in Hk. rewrite Hk in *. simpl in Hsum.
    exists []. split_and!; [|simpl; lia|].
    - unfold sort_fission_bank. rewrite Hk. simpl.
      destruct st as [sb [buf|] n m ppp w e]; simpl in *; by subst.
    - intros s Hs.
      destruct (live_sites st); [by apply not_elem_of_nil in Hs|done]. }
  assert (progeny_per_particle st ≠ []) as Hne
    by (intros E; by rewrite E in Hk).
  assert (∀ r,
    for_loop 0 (fission_bank_length st)
      (scatter_body (fission_bank st)
         (exclusive_scan (progeny_per_particle st)))
      (replicate (Z.to_nat (fission_bank_length st)) site0) = Ok r →
    for_loop 0 (fission_bank_length st) (copy_body r) (fission_bank st)
    = Ok ((λ buf, r ++ drop (length r) buf) <$> fission_bank st) →
    sort_fission_bank site0 st
    = Ok (set_fission_bank
            ((λ buf, r ++ drop (length r) buf) <$> fission_bank st)
            (set_progeny_per_particle
               (exclusive_scan (progeny_per_particle st)) st))) as Hrun.
  { intros r Hscatter Hcopy. unfold sort_fission_bank.
    rewrite decide_False by done.
    rewrite scan_loop_exclusive_scan by done. rewrite res_bind_Ok.
    cbn [fission_bank_length fission_bank set_progeny_per_particle].
    unfold vec_alloc. rewrite decide_True by lia. rewrite res_bind_Ok.
    rewrite Hscatter, res_bind_Ok, Hcopy. done. }
  unfold for_loop in Hrun. rewrite Z.sub_0_r in Hrun.
  replace (Z.to_nat (fission_bank_length st)) with (length (live_sites st))
    in Hrun by lia.
  destruct (fission_bank st) as [buf|] eqn:Hfb.
  - assert (bank_cells st = buf) as Hcells by (unfold bank_cells; by rewrite Hfb).
    assert (buf = live_sites st ++ drop (length (live_sites st)) buf) as Hbuf.
    { unfold live_sites. rewrite Hcells.
      rewrite length_take, Nat.min_l, take_drop; [done|].
      rewrite Hcells in Hlen. lia. }
    destruct (scatter_iter (exclusive_scan (progeny_per_particle st))
                (canonical_dest (progeny_per_particle st))
                (live_sites st) [] (drop (length (live_sites st)) buf)
                (replicate (length (live_sites st)) site0))
      as (r & Hr & Hrlen & Hin & _).
    { intros s Hs. destruct (sort_ready_place st s Hready Hs) as (off & ? & ? & ?).
      exists off. rewrite ?length_replicate. split_and!; (done || lia). }
    { by apply canonical_dest_NoDup. }
    rewrite length_replicate in Hrlen.
    simpl in Hr. rewrite <-Hbuf in Hr.
    exists r. split_and!; [|lia|done].
    apply Hrun; [done|].
    pose proof (copy_iter r [] (live_sites st)
                  (drop (length (live_sites st)) buf)) as Hcopy.
    simpl in Hcopy. rewrite <-Hbuf, Hrlen in Hcopy.
    change (Z.of_nat 0) with 0 in Hcopy.
    rewrite Hcopy by done. simpl. by rewrite Hrlen.
  - assert (live_sites st = []) as Hnil.
    { unfold live_sites, bank_cells. rewrite Hfb. simpl. by rewrite take_nil. }
    rewrite Hnil in *.
    exists []. split_and!; [by apply Hrun|simpl in *; lia|].
    intros s Hs. by apply not_elem_of_nil in Hs.
Qed.

End SortRun.

(** ** What the sort leaves behind *)

Section SortResult.
Context {Payload : Type} (site0 : @Bank Payload).
Implicit Types (s : @Bank Payload) (st : @State Payload).
Import Int64 Int64Facts.

(** The state after the sort, field by field. *)
Lemma sort_ready_result st :
  sort_ready st →
  ∃ st',
    sort_fission_bank site0 st = Ok st' ∧
    progeny_per_particle st' = exclusive_scan (progeny_per_particle st) ∧
    source_bank st' = source_bank st ∧
    fission_bank_length st' = fission_bank_length st ∧
    fission_bank_max st' = fission_bank_max st ∧
    work_per_rank st' = work_per_rank st ∧
    errmsg st' = errmsg st ∧
    (fission_bank st' = None ↔ fission_bank st = None) ∧
    bank_cells st'
    = live_sites st'
      ++ drop (Z.to_nat (fission_bank_length st)) (bank_cells st) ∧
    length (live_sites st') = length (live_sites st) ∧
    (∀ s, s ∈ live_sites st →
       live_sites st' !! Z.to_nat (canonical_dest (progeny_per_particle st) s)
       = Some s).
Proof.
  intros Hready.
  destruct (sort_ready_run site0 st Hready) as (r & Hrun & Hrlen & Hin).
  pose proof (live_sites_length st (ready_length st Hready)) as Hn.
  assert (fission_bank st = None → r = []) as Hnull.
  { intros Hfb. destruct Hready as [_ Hlen _]. unfold bank_cells in Hlen.
    rewrite Hfb in Hlen. simpl in Hlen. destruct r; [done|simpl in *; lia]. }
  eexists. split; [exact Hrun|].
  match goal with |- context [live_sites ?x !! _] => set (st' := x) end.
  assert (bank_cells st' = r ++ drop (length r) (bank_cells st)) as Hcells.
  { unfold bank_cells, st'. simpl.
    destruct (fission_bank st); simpl; [done|]. by rewrite Hnull. }
  assert (live_sites st' = r) as Hlive.
  { unfold live_sites. rewrite Hcells. subst st'. simpl.
    rewrite <-Hrlen, Nat2Z.id. apply take_app_length. }
  rewrite Hlive. subst st'. simpl.
  replace (Z.to_nat (fission_bank_length st)) with (length r) by lia.
  split_and!; try done; [|lia].
  destruct (fission_bank st); naive_solver.
Qed.

(** A list that holds every site of [sites] at its destination, where the
    destinations are [0, ..., n - 1] each once, is a rearrangement of
    [sites]. *)
Lemma placed_Permutation (dest : @Bank Payload → Z) sites r :
  dest <$> sites ≡ₚ seqZ 0 (Z.of_nat (length r)) →
  (∀ s, s ∈ sites → r !! Z.to_nat (dest s) = Some s) →
  r ≡ₚ sites.
Proof.
  intros Hperm Hin.
  set (g := λ d : Z, default site0 (r !! Z.to_nat d)).
  assert (g <$> (dest <$> sites) = sites) as Hsites.
  { rewrite <-list_fmap_compose. rewrite <-(list_fmap_id sites) at 2.
    apply list_fmap_ext. intros i s Hs. apply list_elem_of_lookup_2 in Hs.
    unfold g. simpl. by rewrite (Hin s Hs). }
  assert (g <$> seqZ 0 (Z.of_nat (length r)) = r) as Hr.
  { apply list_eq. intros i. rewrite list_lookup_fmap.
    destruct (decide (i < length r)%nat) as [Hi|Hi].
    - rewrite lookup_seqZ_lt by lia. simpl. unfold g.
      destruct (lookup_lt_is_Some_2 r i Hi) as [x Hx].
      by rewrite Z.add_0_l, Nat2Z.id, Hx.
    - rewrite lookup_seqZ_ge by lia. simpl.
      symmetry. apply lookup_ge_None. lia. }
  by rewrite <-Hr, <-Hperm, Hsites.
Qed.

(** Two such lists for rearrangements of the same sites are equal. *)
Lemma placed_unique (dest : @Bank Payload → Z) sites1 sites2 r1 r2 :
  sites1 ≡ₚ sites2 →
  dest <$> sites1 ≡ₚ seqZ 0 (Z.of_nat (length r1)) →
  length r2 = length r1 →
  (∀ s, s ∈ sites1 → r1 !! Z.to_nat (dest s) = Some s) →
  (∀ s, s ∈ sites2 → r2 !! Z.to_nat (dest s) = Some s) →
  r1 = r2.
Proof.
  intros Hsites Hperm Hlen Hin1 Hin2.
  apply (list_eq_same_length _ _ (length r1)); [done..|].
  intros i x y Hi Hx Hy.
  assert (Z.of_nat i ∈ dest <$> sites1) as Hd.
  { rewrite Hperm. apply elem_of_seqZ. lia. }
  apply list_elem_of_fmap in Hd as (s & Hds & Hs).
  pose proof (Hin1 s Hs) as H1.
  pose proof (Hin2 s ltac:(by rewrite <-Hsites)) as H2.
  rewrite <-Hds, Nat2Z.id in H1, H2. congruence.
Qed.

End SortResult.

(** * The properties of the specification *)

Section ScanClaims.
Import Int64 Int64Facts.

Lemma exclusive_scan_prefix_sums l :
  exclusive_scan l = wrap <$> prefix_sums l.
Proof.
  apply list_eq. intros i. unfold prefix_sums.
  rewrite !list_lookup_fmap.
  destruct (decide (i < length l)%nat) as [Hi|Hi].
  - rewrite lookup_exclusive_scan, lookup_seq_lt by done. done.
  - rewrite lookup_seq_ge by lia. simpl. apply lookup_ge_None.
    unfold exclusive_scan. rewrite length_exclusive_scan_from. lia.
Qed.

(** C4.  On a non-empty counter vector the in-place loop with [tmp]
    returns, and returns the exclusive scan of the original counts: the
    reference [exclusive_scan], whose entry [i] is the sum of the counts
    below [i] in 64-bit arithmetic, and the integer sums [prefix_sums]
    themselves whenever these fit in 64 bits. *)
Theorem scan_loop_refines_exclusive_scan (ppp : list Z) :
  ppp ≠ [] →
  scan_loop ppp = Ok (exclusive_scan ppp) ∧
  exclusive_scan ppp = wrap <$> prefix_sums ppp ∧
  (Forall in_range (prefix_sums ppp) → scan_loop ppp = Ok (prefix_sums ppp)).
Proof.
  intros Hne. split_and!.
  - by apply scan_loop_exclusive_scan.
  - apply exclusive_scan_prefix_sums.
  - intros Hfit. rewrite scan_loop_exclusive_scan by done. f_equal.
    rewrite exclusive_scan_prefix_sums.
    rewrite <-(list_fmap_id (prefix_sums ppp)) at 2.
    apply list_fmap_ext. intros i x Hx. apply wrap_id.
    by eapply Forall_lookup_1.
Qed.

End ScanClaims.

Section Claims.
Context {Payload : Type} (site0 : @Bank Payload) (OPENMC_E_ALLOCATE : Z).
Implicit Types (s : @Bank Payload) (st : @State Payload).
Import Int64 Int64Facts.

(** C1.  On a ready state the sort returns, and afterwards every live
    site sits at the index [canonical_index]: the sum of the counts of the
    source particles before its parent, plus its [progeny_id].  For every
    source particle [p] (1-based) with count [c] and every [j] in
    [[0, c)], the site found there is the live site with parent [p] and
    progeny number [j]. *)
Theorem sort_canonical_position st :
  sort_ready st →
  ∃ st',
    sort_fission_bank site0 st = Ok st' ∧
    (∀ s, s ∈ live_sites st →
       bank_cells st'
         !! Z.to_nat (canonical_index (progeny_per_particle st)
                        (parent_id s) (progeny_id s)) = Some s) ∧
    (∀ p j c,
       1 ≤ p → progeny_per_particle st !! Z.to_nat (p - 1) = Some c →
       0 ≤ j < c →
       ∃ s, s ∈ live_sites st ∧ parent_id s = p ∧ progeny_id s = j ∧
            bank_cells st'
              !! Z.to_nat (canonical_index (progeny_per_particle st) p j)
            = Some s).
Proof.
  intros Hready.
  destruct (sort_ready_result site0 st Hready)
    as (st' & Hrun & _ & _ & _ & _ & _ & _ & _ & Hcells & _ & Hin).
  exists st'. split; [done|].
  assert (∀ s, s ∈ live_sites st →
    bank_cells st'
      !! Z.to_nat (canonical_index (progeny_per_particle st)
                     (parent_id s) (progeny_id s)) = Some s) as Hat.
  { intros s Hs. rewrite Hcells. apply lookup_app_l_Some. by apply Hin. }
  split; [done|].
  intros p j c Hp Hc Hj.
  destruct (lineage_site_exists _ _ _ c j (ready_lineage st Hready) Hc Hj)
    as (s & Hs & Hps & Hjs).
  exists s. rewrite Z2Nat.id in Hps by lia.
  split_and!; [done|lia|done|].
  replace p with (parent_id s) by lia. rewrite <-Hjs. by apply Hat.
Qed.

(** C2.  On a ready state the sort returns and rearranges the live
    region: the destinations of the live sites are [0, ..., length - 1],
    each exactly once, every live site is found at its destination
    afterwards, and the live region after the sort is a permutation of the
    live region before. *)
Theorem sort_permutation st :
  sort_ready st →
  ∃ st',
    sort_fission_bank site0 st = Ok st' ∧
    canonical_dest (progeny_per_particle st) <$> live_sites st
      ≡ₚ seqZ 0 (fission_bank_length st) ∧
    (∀ s, s ∈ live_sites st →
       live_sites st' !! Z.to_nat (canonical_dest (progeny_per_particle st) s)
       = Some s) ∧
    live_sites st' ≡ₚ live_sites st.
Proof.
  intros Hready.
  destruct (sort_ready_result site0 st Hready)
    as (st' & Hrun & _ & _ & _ & _ & _ & _ & _ & _ & Hlen & Hin).
  pose proof (canonical_dest_layout _ _ (ready_lineage st Hready)) as Hlayout.
  destruct (lineage_length _ _ (ready_lineage st Hready)) as [_ Hsum].
  pose proof (live_sites_length st (ready_length st Hready)) as Hn.
  rewrite <-Hsum in Hlayout.
  exists st'. split_and!; [done| |done|].
  - by rewrite <-Hn.
  - apply (placed_Permutation site0 (canonical_dest (progeny_per_particle st)));
      [|done].
    by rewrite Hlen.
Qed.

(** C3, as amended.  Take a ready state, so that its live region satisfies
    the lineage invariant for its counters, and a second state with the
    same counters whose live region is a rearrangement of the first one's.
    The sort returns on both and leaves the same live region and the same
    counters. *)
Theorem sort_order_independent st1 st2 :
  sort_ready st1 →
  state_typed st2 →
  0 ≤ fission_bank_length st2 ≤ Z.of_nat (length (bank_cells st2)) →
  live_sites st1 ≡ₚ live_sites st2 →
  progeny_per_particle st1 = progeny_per_particle st2 →
  ∃ st1' st2',
    sort_fission_bank site0 st1 = Ok st1' ∧
    sort_fission_bank site0 st2 = Ok st2' ∧
    live_sites st1' = live_sites st2' ∧
    progeny_per_particle st1' = progeny_per_particle st2'.
Proof.
  intros Hready1 Htyped2 Hlength2 Hperm Hppp.
  assert (sort_ready st2) as Hready2.
  { split; [done..|]. rewrite <-Hppp.
    by apply (lineage_Permutation (live_sites st1)), Hready1. }
  destruct (sort_ready_result site0 st1 Hready1)
    as (st1' & Hrun1 & Hppp1 & _ & _ & _ & _ & _ & _ & _ & Hlen1 & Hin1).
  destruct (sort_ready_result site0 st2 Hready2)
    as (st2' & Hrun2 & Hppp2 & _ & _ & _ & _ & _ & _ & _ & Hlen2 & Hin2).
  pose proof (canonical_dest_layout _ _ (ready_lineage st1 Hready1)) as Hlayout.
  destruct (lineage_length _ _ (ready_lineage st1 Hready1)) as [_ Hsum].
  rewrite <-Hsum, <-Hlen1 in Hlayout.
  exists st1', st2'. split_and!; [done..| |congruence].
  apply (placed_unique (canonical_dest (progeny_per_particle st1))
           (live_sites st1) (live_sites st2)); [done..| |done|].
  - rewrite Hlen1, Hlen2. symmetry. by apply Permutation_length.
  - by rewrite Hppp.
Qed.

(** C8.  With an empty counter vector the sort returns at once and the
    state is the one it was called on. *)
Theorem sort_empty_counter_noop st :
  progeny_per_particle st = [] → sort_fission_bank site0 st = Ok st.
Proof. intros Hk. unfold sort_fission_bank. by rewrite Hk. Qed.

(** C10.  On a ready state the sort returns and leaves
    [fission_bank_length], [fission_bank_max], the source bank,
    [work_per_rank] and the error message as they were; the bank pointer
    stays null or non-null, the array keeps its size, and every cell at an
    index at or beyond [fission_bank_length] keeps its site. *)
Theorem sort_frame st :
  sort_ready st →
  ∃ st',
    sort_fission_bank site0 st = Ok st' ∧
    fission_bank_length st' = fission_bank_length st ∧
    fission_bank_max st' = fission_bank_max st ∧
    source_bank st' = source_bank st ∧
    work_per_rank st' = work_per_rank st ∧
    errmsg st' = errmsg st ∧
    (fission_bank st' = None ↔ fission_bank st = None) ∧
    length (bank_cells st') = length (bank_cells st) ∧
    (∀ i : nat, fission_bank_length st ≤ Z.of_nat i →
       bank_cells st' !! i = bank_cells st !! i).
Proof.
  intros Hready.
  destruct (sort_ready_result site0 st Hready)
    as (st' & Hrun & _ & Hsb & Hlen & Hmax & Hw & He & Hnull & Hcells & Hlive & _).
  pose proof (ready_length st Hready) as Hrange.
  pose proof (live_sites_length st Hrange) as Hn.
  exists st'. split_and!; try done.
  - rewrite Hcells, length_app, length_drop. lia.
  - intros i Hi. rewrite Hcells, lookup_app_r by lia.
    rewrite lookup_drop. f_equal. lia.
Qed.

End Claims.

Section LifecycleClaims.
Context {Payload : Type} (site0 : @Bank Payload) (OPENMC_E_ALLOCATE : Z).
Implicit Types (s : @Bank Payload) (st : @State Payload).

Lemma lookup_vec_resize (v : list Z) (n i : nat) :
  (i < n)%nat →
  (take n v ++ replicate (n - length v) 0) !! i = Some (default 0 (v !! i)).
Proof.
  intros Hi. destruct (decide (i < length v)%nat) as [Hv|Hv].
  - rewrite lookup_app_l by (rewrite length_take; lia).
    rewrite lookup_take_lt by done.
    by destruct (lookup_lt_is_Some_2 v i Hv) as [x ->].
  - rewrite lookup_app_r by (rewrite length_take; lia).
    rewrite length_take, lookup_replicate_2 by lia.
    by rewrite lookup_ge_None_2 by lia.
Qed.

(** C5.  A bank whose length has reached its capacity reports the
    capacity error and is left as it was.  From a fresh bank of capacity 2,
    two appends return the indices 0 and 1 and a third reports the error
    without writing: the bank still holds the first two sites. *)
Theorem append_full_reports_capacity_error :
  (∀ st site, fission_bank_length st = fission_bank_max st →
     append site st = CapacityError st) ∧
  (∀ st0 a b c, 0 ≤ work_per_rank st0 →
     ∃ st1 st2 st3,
       init_fission_bank site0 2 st0 = Ok st1 ∧
       append a st1 = Appended 0 st2 ∧
       append b st2 = Appended 1 st3 ∧
       append c st3 = CapacityError st3 ∧
       fission_bank st3 = Some [a; b] ∧
       fission_bank_length st3 = 2).
Proof.
  split.
  - intros st site Hfull. unfold append. by rewrite decide_True by lia.
  - intros st0 a b c Hw. unfold init_fission_bank, vec_alloc, vec_resize.
    simpl. rewrite decide_True by done. simpl.
    by repeat eexists.
Qed.

(** C6.  With an empty source bank [openmc_source_bank] returns
    [OPENMC_E_ALLOCATE], sets the message and leaves the caller's outputs
    and the rest of the state alone; otherwise it returns [0], leaves the
    state alone and hands out the data pointer and the size.
    [openmc_fission_bank] does the same on [fission_bank_length].  When
    [OPENMC_E_ALLOCATE] is not [0], the status tells the two cases
    apart. *)
Theorem accessors_report_unallocated st out :
  (length (source_bank st) = 0%nat →
     openmc_source_bank OPENMC_E_ALLOCATE st out
     = (OPENMC_E_ALLOCATE,
        set_errmsg "Source bank has not been allocated." st, out)) ∧
  (length (source_bank st) ≠ 0%nat →
     openmc_source_bank OPENMC_E_ALLOCATE st out
     = (0, st, mkOut SourceBankData (Z.of_nat (length (source_bank st))))) ∧
  (fission_bank_length st = 0 →
     openmc_fission_bank OPENMC_E_ALLOCATE st out
     = (OPENMC_E_ALLOCATE,
        set_errmsg "Fission bank has not been allocated." st, out)) ∧
  (fission_bank_length st ≠ 0 →
     openmc_fission_bank OPENMC_E_ALLOCATE st out
     = (0, st, mkOut (fission_bank_get st) (fission_bank_length st))) ∧
  (OPENMC_E_ALLOCATE ≠ 0 →
     ((openmc_source_bank OPENMC_E_ALLOCATE st out).1.1 = 0
        ↔ length (source_bank st) ≠ 0%nat) ∧
     ((openmc_fission_bank OPENMC_E_ALLOCATE st out).1.1 = 0
        ↔ fission_bank_length st ≠ 0)).
Proof.
  unfold openmc_source_bank, openmc_fission_bank.
  split_and!; intros; repeat case_decide; simpl; try done; naive_solver.
Qed.

(** C7, as amended.  After an [init_fission_bank] that returned, the
    capacity and the number of local source particles were not negative
    and the counter vector has one entry per local source particle; the
    entries below its previous length keep their values and the entries
    beyond are zero.  So all entries are zero when those of the previous
    vector were.  The bank is a fresh array of [max] sites of length 0. *)
Theorem init_fission_bank_resizes_counter st max st' :
  init_fission_bank site0 max st = Ok st' →
  0 ≤ max ∧ 0 ≤ work_per_rank st ∧
  length (progeny_per_particle st') = Z.to_nat (work_per_rank st) ∧
  (∀ i : nat, (i < Z.to_nat (work_per_rank st))%nat →
     progeny_per_particle st' !! i
     = Some (default 0 (progeny_per_particle st !! i))) ∧
  (Forall (λ c, c = 0) (progeny_per_particle st) →
   Forall (λ c, c = 0) (progeny_per_particle st')) ∧
  fission_bank st' = Some (replicate (Z.to_nat max) site0) ∧
  fission_bank_length st' = 0 ∧
  fission_bank_max st' = max.
Proof.
  intros Hinit.
  unfold init_fission_bank, vec_alloc, vec_resize in Hinit. simpl in Hinit.
  repeat case_decide; simpl in Hinit; try done. injection Hinit as <-.
  simpl. split_and!; try done.
  - rewrite length_app, length_take, length_replicate. lia.
  - intros i Hi. by apply lookup_vec_resize.
  - intros Hzero. apply Forall_app. split.
    + by apply Forall_take.
    + apply Forall_replicate. done.
Qed.

(** C9, as amended.  After [free_memory_bank] the fission bank pointer is
    null, the source bank is empty and [fission_bank_length] is [0]; the
    counter vector, [fission_bank_max], [work_per_rank] and the message
    are as before; a second call changes nothing. *)
Theorem free_memory_bank_idempotent st :
  fission_bank (free_memory_bank st) = None ∧
  source_bank (free_memory_bank st) = [] ∧
  fission_bank_length (free_memory_bank st) = 0 ∧
  progeny_per_particle (free_memory_bank st) = progeny_per_particle st ∧
  fission_bank_max (free_memory_bank st) = fission_bank_max st ∧
  work_per_rank (free_memory_bank st) = work_per_rank st ∧
  errmsg (free_memory_bank st) = errmsg st ∧
  free_memory_bank (free_memory_bank st) = free_memory_bank st.
Proof. by split_and!. Qed.

End LifecycleClaims.

(** * The theorems on concrete banks *)

Lemma scenario_ready : sort_ready scenario.
Proof. apply (bool_decide_unpack _). vm_compute. exact I. Qed.

(** The scenario of the specification: whatever the banking order, particle
    1's progeny 0 and 1 come first and particle 3's progeny 0 last. *)
Lemma sort_canonical_position_witness :
  sort_ready scenario ∧
  ∃ st', sort_fission_bank site0Z scenario = Ok st' ∧
         bank_cells st' !! 0%nat = Some (mkBank 1 0 10) ∧
         bank_cells st' !! 1%nat = Some (mkBank 1 1 11) ∧
         bank_cells st' !! 2%nat = Some (mkBank 3 0 30).
Proof.
  split; [exact scenario_ready|].
  destruct (sort_canonical_position site0Z scenario scenario_ready)
    as (st' & Hrun & Hat & _).
  exists st'. split; [exact Hrun|]. split_and!.
  - apply (Hat (mkBank 1 0 10)), (list_elem_of_lookup_2 _ 2%nat). reflexivity.
  - apply (Hat (mkBank 1 1 11)), (list_elem_of_lookup_2 _ 1%nat). reflexivity.
  - apply (Hat (mkBank 3 0 30)), (list_elem_of_lookup_2 _ 0%nat). reflexivity.
Defined.

Lemma sort_permutation_witness :
  sort_ready scenario ∧
  ∃ st', sort_fission_bank site0Z scenario = Ok st' ∧
         live_sites st' ≡ₚ [mkBank 3 0 30; mkBank 1 1 11; mkBank 1 0 10].
Proof.
  split; [exact scenario_ready|].
  destruct (sort_permutation site0Z scenario scenario_ready)
    as (st' & Hrun & _ & _ & Hperm).
  exists st'. split; [exact Hrun|exact Hperm].
Defined.

(** C3 as stated fails: without the lineage invariant two sites can claim
    the same index, the later one in bank order wins, and the two orders of
    the same two sites are sorted to different banks. *)
Lemma sort_order_dependent_on_clash :
  live_sites clash_ab ≡ₚ live_sites clash_ba ∧
  progeny_per_particle clash_ab = progeny_per_particle clash_ba ∧
  ∃ ab' ba',
    sort_fission_bank site0Z clash_ab = Ok ab' ∧
    sort_fission_bank site0Z clash_ba = Ok ba' ∧
    live_sites ab' ≠ live_sites ba'.
Proof.
  split; [apply perm_swap|]. split; [reflexivity|].
  eexists _, _. split; [vm_compute; reflexivity|].
  split; [vm_compute; reflexivity|].
  vm_compute. intros [=].
Qed.

Lemma sort_order_independent_witness :
  sort_ready scenario ∧ state_typed scenario_reordered ∧
  0 ≤ fission_bank_length scenario_reordered
    ≤ Z.of_nat (length (bank_cells scenario_reordered)) ∧
  live_sites scenario ≡ₚ live_sites scenario_reordered ∧
  progeny_per_particle scenario = progeny_per_particle scenario_reordered ∧
  ∃ st1' st2',
    sort_fission_bank site0Z scenario = Ok st1' ∧
    sort_fission_bank site0Z scenario_reordered = Ok st2' ∧
    live_sites st1' = live_sites st2' ∧
    progeny_per_particle st1' = progeny_per_particle st2'.
Proof.
  assert (live_sites scenario ≡ₚ live_sites scenario_reordered) as Hperm.
  { apply (bool_decide_unpack _). vm_compute. exact I. }
  assert (state_typed scenario_reordered) as Htyped
    by (apply (bool_decide_unpack _); vm_compute; exact I).
  assert (0 ≤ fission_bank_length scenario_reordered
            ≤ Z.of_nat (length (bank_cells scenario_reordered))) as Hlength
    by (apply (bool_decide_unpack _); vm_compute; exact I).
  split; [exact scenario_ready|]. split; [exact Htyped|].
  split; [exact Hlength|]. split; [exact Hperm|]. split; [reflexivity|].
  exact (sort_order_independent site0Z scenario scenario_reordered
           scenario_ready Htyped Hlength Hperm eq_refl).
Defined.

Lemma scan_loop_refines_exclusive_scan_witness :
  [2; 0; 1] ≠ [] ∧
  Forall Int64.in_range (prefix_sums [2; 0; 1]) ∧
  scan_loop [2; 0; 1] = Ok (exclusive_scan [2; 0; 1]) ∧
  scan_loop [2; 0; 1] = Ok [0; 2; 2].
Proof.
  assert ([2; 0; 1] ≠ []) as Hne by discriminate.
  assert (Forall Int64.in_range (prefix_sums [2; 0; 1])) as Hfit
    by (apply (bool_decide_unpack _); vm_compute; exact I).
  destruct (scan_loop_refines_exclusive_scan [2; 0; 1] Hne) as (Hscan & _ & Hsum).
  split; [exact Hne|]. split; [exact Hfit|]. split; [exact Hscan|].
  exact (Hsum Hfit).
Defined.

Lemma append_full_reports_capacity_error_witness :
  fission_bank_length full_bank = fission_bank_max full_bank ∧
  append (mkBank 1 2 9) full_bank = CapacityError full_bank ∧
  0 ≤ work_per_rank sourced ∧
  ∃ st1 st2 st3,
    init_fission_bank site0Z 2 sourced = Ok st1 ∧
    append (mkBank 1 0 7) st1 = Appended 0 st2 ∧
    append (mkBank 1 1 8) st2 = Appended 1 st3 ∧
    append (mkBank 1 2 9) st3 = CapacityError st3 ∧
    fission_bank st3 = Some [mkBank 1 0 7; mkBank 1 1 8] ∧
    fission_bank_length st3 = 2.
Proof.
  destruct (append_full_reports_capacity_error site0Z) as [Hfull Hrun].
  split; [reflexivity|]. split; [apply Hfull; reflexivity|].
  split; [vm_compute; discriminate|].
  apply Hrun. vm_compute. discriminate.
Defined.

Lemma accessors_report_unallocated_witness :
  length (source_bank scenario) = 0%nat ∧
  fission_bank_length scenario ≠ 0 ∧
  length (source_bank sourced) ≠ 0%nat ∧
  fission_bank_length sourced = 0 ∧
  openmc_source_bank (-2) scenario (mkOut (Foreign 5) 9)
  = (-2, set_errmsg "Source bank has not been allocated." scenario,
     mkOut (Foreign 5) 9) ∧
  openmc_fission_bank (-2) scenario (mkOut (Foreign 5) 9)
  = (0, scenario, mkOut FissionBankData 3) ∧
  openmc_source_bank (-2) sourced (mkOut (Foreign 5) 9)
  = (0, sourced, mkOut SourceBankData 2) ∧
  openmc_fission_bank (-2) sourced (mkOut (Foreign 5) 9)
  = (-2, set_errmsg "Fission bank has not been allocated." sourced,
     mkOut (Foreign 5) 9).
Proof.
  destruct (accessors_report_unallocated (-2) scenario (mkOut (Foreign 5) 9))
    as (Hsrc & _ & _ & Hfis & _).
  destruct (accessors_report_unallocated (-2) sourced (mkOut (Foreign 5) 9))
    as (_ & Hsrc' & Hfis' & _ & _).
  split; [reflexivity|]. split; [discriminate|].
  split; [discriminate|]. split; [reflexivity|].
  split; [apply Hsrc; reflexivity|].
  split; [apply Hfis; discriminate|].
  split; [apply Hsrc'; discriminate|].
  apply Hfis'; reflexivity.
Defined.

(** C7 as stated fails: called on the state the sort of [scenario] leaves
    behind, [init_fission_bank] keeps the three prefix offsets. *)
Lemma init_fission_bank_keeps_offsets :
  ∃ st st',
    sort_fission_bank site0Z scenario = Ok st ∧
    work_per_rank st = 3 ∧
    init_fission_bank site0Z 4 st = Ok st' ∧
    progeny_per_particle st' = [0; 2; 2] ∧
    ¬ Forall (λ c, c = 0) (progeny_per_particle st').
Proof.
  eexists _, _. split; [vm_compute; reflexivity|].
  split; [reflexivity|]. split; [vm_compute; reflexivity|].
  split; [reflexivity|].
  intros H. apply (Forall_lookup_1 _ _ 1%nat 2) in H; [discriminate|reflexivity].
Qed.

Lemma init_fission_bank_resizes_counter_witness :
  init_fission_bank site0Z 2 sourced
  = Ok (mkState (source_bank sourced) (Some [site0Z; site0Z]) 0 2 [0; 0] 2 "") ∧
  length [0; 0] = Z.to_nat (work_per_rank sourced) ∧
  (Forall (λ c, c = 0) (progeny_per_particle sourced) →
   Forall (λ c, c = 0) [0; 0]).
Proof.
  assert (init_fission_bank site0Z 2 sourced
          = Ok (mkState (source_bank sourced) (Some [site0Z; site0Z])
                  0 2 [0; 0] 2 "")) as Hrun by (vm_compute; reflexivity).
  destruct (init_fission_bank_resizes_counter site0Z sourced 2 _ Hrun)
    as (_ & _ & Hlen & _ & Hzero & _).
  split; [exact Hrun|]. split; [exact Hlen|exact Hzero].
Defined.

Lemma sort_empty_counter_noop_witness :
  progeny_per_particle sourced = [] ∧
  sort_fission_bank site0Z sourced = Ok sourced.
Proof.
  split; [reflexivity|].
  apply (sort_empty_counter_noop site0Z sourced). reflexivity.
Defined.

(** C9 as stated fails if the counters include the progeny counters:
    [free_memory_bank] leaves them, and [fission_bank_max], as they were. *)
Lemma free_memory_bank_keeps_counter :
  progeny_per_particle (free_memory_bank scenario) = [2; 0; 1] ∧
  fission_bank_max (free_memory_bank scenario) = 4 ∧
  progeny_per_particle (free_memory_bank scenario) ≠ [] ∧
  ¬ Forall (λ c, c = 0) (progeny_per_particle (free_memory_bank scenario)).
Proof.
  split; [reflexivity|]. split; [reflexivity|]. split; [discriminate|].
  intros H. apply (Forall_lookup_1 _ _ 0%nat 2) in H; [discriminate|reflexivity].
Qed.

Lemma sort_frame_witness :
  sort_ready scenario ∧
  ∃ st',
    sort_fission_bank site0Z scenario = Ok st' ∧
    fission_bank_length st' = 3 ∧
    fission_bank_max st' = 4 ∧
    source_bank st' = [] ∧
    bank_cells st' !! 3%nat = Some site0Z.
Proof.
  split; [exact scenario_ready|].
  destruct (sort_frame site0Z scenario scenario_ready)
    as (st' & Hrun & Hlen & Hmax & Hsb & _ & _ & _ & _ & Htail).
  exists st'. split; [exact Hrun|]. split_and!; [exact Hlen|exact Hmax|exact Hsb|].
  rewrite (Htail 3%nat); [reflexivity|]. vm_compute. discriminate.
Defined.

(** * Further properties of the code *)

(** ** Runs that return *)

Lemma res_bind_inv {A B} (m : res A) (k : A → res B) (b : B) :
  m ≫= k = Ok b → ∃ a, m = Ok a ∧ k a = Ok b.
Proof. destruct m as [a|f]; [by exists a|done]. Qed.

Lemma vec_get_inv {A} (v : list A) i x :
  vec_get v i = Ok x → 0 ≤ i ∧ v !! Z.to_nat i = Some x.
Proof.
  unfold vec_get. case_decide; [|done].
  destruct (v !! Z.to_nat i) eqn:E; [|done]. intros [= <-]. done.
Qed.

Lemma vec_set_inv {A} (v : list A) i x v' :
  vec_set v i x = Ok v' →
  0 ≤ i < Z.of_nat (length v) ∧ v' = <[Z.to_nat i := x]> v.
Proof. unfold vec_set. case_decide; [|done]. intros [= <-]. done. Qed.

(** A property that every pass of the body carries from the counter [i] to
    [i + 1] holds at the end of a loop that returns. *)
Lemma for_iter_invariant {S} (I : Z → S → Prop) (body : Z → S → res S) :
  ∀ n lo s s',
    (∀ i t t', lo ≤ i < lo + Z.of_nat n → I i t → body i t = Ok t' →
               I (i + 1) t') →
    I lo s → for_iter n lo body s = Ok s' → I (lo + Z.of_nat n) s'.
Proof.
  induction n as [|n IH]; intros lo s s' Hstep Hs Hrun.
  - simpl in Hrun. injection Hrun as <-. by rewrite Z.add_0_r.
  - rewrite for_iter_S in Hrun.
    apply res_bind_inv in Hrun as (t & Hbody & Hrest).
    replace (lo + Z.of_nat (Datatypes.S n)) with (lo + 1 + Z.of_nat n) by lia.
    apply (IH (lo + 1) t s'); [|by apply (Hstep lo s t); [lia|..]|done].
    intros i u u' Hi. apply Hstep. lia.
Qed.

(** A loop whose body returns wherever the property holds, and carries it
    on, returns. *)
Lemma for_iter_progress {S} (I : Z → S → Prop) (body : Z → S → res S) :
  ∀ n lo s,
    (∀ i t, lo ≤ i < lo + Z.of_nat n → I i t →
            ∃ t', body i t = Ok t' ∧ I (i + 1) t') →
    I lo s → ∃ s', for_iter n lo body s = Ok s' ∧ I (lo + Z.of_nat n) s'.
Proof.
  induction n as [|n IH]; intros lo s Hstep Hs.
  - exists s. by rewrite Z.add_0_r.
  - destruct (Hstep lo s) as (t & Hbody & Ht); [lia|done|].
    destruct (IH (lo + 1) t) as (s' & Hrest & Hs'); [|done|].
    { intros i u Hi. apply Hstep. lia. }
    exists s'. rewrite for_iter_S, Hbody, res_bind_Ok.
    split; [done|]. by replace (lo + Z.of_nat (Datatypes.S n)) with (lo + 1 + Z.of_nat n) by lia.
Qed.

Section Returns.
Context {Payload : Type} (site0 : @Bank Payload).
Implicit Types (s : @Bank Payload) (st : @State Payload).
Implicit Types (fb : option (list (@Bank Payload))).
Import Int64 Int64Facts.

Lemma bank_get_inv fb i s :
  bank_get fb i = Ok s → 0 ≤ i ∧ default [] fb !! Z.to_nat i = Some s.
Proof. destruct fb as [buf|]; [apply vec_get_inv|done]. Qed.

Lemma scatter_body_inv fb offsets i sorted sorted' :
  scatter_body fb offsets i sorted = Ok sorted' →
  ∃ s, bank_get fb i = Ok s ∧
       in_bounds offsets (Z.of_nat (length sorted)) s ∧
       sorted' = <[Z.to_nat (add (default 0 (offsets !! Z.to_nat (sub (parent_id s) 1)))
                              (progeny_id s)) := s]> sorted.
Proof.
  unfold scatter_body. intros Hrun.
  apply res_bind_inv in Hrun as (s & Hs & Hrun).
  apply res_bind_inv in Hrun as (off & Hoff & Hrun).
  apply vec_set_inv in Hrun as [Hidx ->].
  exists s. unfold in_bounds. rewrite Hoff.
  apply vec_get_inv in Hoff as [_ ->]. done.
Qed.

(** What a scatter loop that returns has done: [sorted_bank] kept its
    size, holds only sites it held before or sites of the live region, and
    every live site was in bounds. *)
Lemma scatter_returns fb offsets (n : nat) sorted0 sorted :
  length sorted0 = n →
  for_iter n 0 (scatter_body fb offsets) sorted0 = Ok sorted →
  length sorted = n ∧
  Forall (λ x, x ∈ sorted0 ∨ x ∈ take n (default [] fb)) sorted ∧
  (∀ j : nat, (j < n)%nat →
     ∃ s, default [] fb !! j = Some s ∧ in_bounds offsets (Z.of_nat n) s).
Proof.
  intros Hlen Hrun.
  pose (I := λ (i : Z) (t : list (@Bank Payload)),
    length t = n ∧
    Forall (λ x, x ∈ sorted0 ∨ x ∈ take n (default [] fb)) t ∧
    (∀ j : nat, Z.of_nat j < i →
       ∃ s, default [] fb !! j = Some s ∧ in_bounds offsets (Z.of_nat n) s)).
  destruct (for_iter_invariant I (scatter_body fb offsets) n 0 sorted0 sorted)
    as (Hn & Hall & Hbounds); [| |done|].
  - intros i t t' Hi (Ht & Hall & Hbounds) Hbody.
    apply scatter_body_inv in Hbody as (s & Hs & Hin & ->).
    apply bank_get_inv in Hs as [_ Hs]. rewrite Ht in Hin.
    split_and!.
    + by rewrite length_insert.
    + apply Forall_insert; [done|]. right.
      apply elem_of_take. exists (Z.to_nat i). split; [done|lia].
    + intros j Hj. destruct (decide (Z.of_nat j < i)) as [Hlt|Hge].
      * by apply Hbounds.
      * exists s. replace j with (Z.to_nat i) by lia. done.
  - split_and!; [done| |intros j Hj; lia].
    apply Forall_forall. intros x Hx. by left.
  - split_and!; [done..|]. intros j Hj. apply Hbounds. lia.
Qed.

(** The scatter loop returns when the live region lies in the array and
    every live site is in bounds. *)
Lemma scatter_in_bounds_returns fb offsets (n : nat) sorted0 :
  length sorted0 = n →
  (n ≤ length (default [] fb))%nat →
  Forall (in_bounds offsets (Z.of_nat n)) (take n (default [] fb)) →
  ∃ sorted, for_iter n 0 (scatter_body fb offsets) sorted0 = Ok sorted ∧
            length sorted = n.
Proof.
  intros Hlen Hn Hall.
  apply (for_iter_progress (λ _ t, length t = n)); [|done].
  intros i t Hi Ht.
  destruct (lookup_lt_is_Some_2 (default [] fb) (Z.to_nat i)) as [s Hs]; [lia|].
  assert (in_bounds offsets (Z.of_nat n) s) as Hin.
  { rewrite Forall_forall in Hall. apply Hall, elem_of_take.
    exists (Z.to_nat i). split; [done|lia]. }
  unfold in_bounds in Hin.
  destruct (vec_get offsets (sub (parent_id s) 1)) as [off|] eqn:Hoff; [|done].
  exists (<[Z.to_nat (add off (progeny_id s)) := s]> t).
  split; [|by rewrite length_insert].
  unfold scatter_body.
  assert (bank_get fb i = Ok s) as ->.
  { destruct fb as [buf|]; simpl in *; [|by rewrite lookup_nil in Hs].
    rewrite <-(Z2Nat.id i) by lia. by apply vec_get_Ok. }
  rewrite res_bind_Ok, Hoff, res_bind_Ok.
  unfold vec_set. rewrite decide_True by lia. done.
Qed.

(** The copy-back loop on a live region that lies in the array. *)
Lemma copy_loop_returns fb (r : list (@Bank Payload)) :
  (length r ≤ length (default [] fb))%nat →
  for_iter (length r) 0 (copy_body r) fb
  = Ok ((λ buf, r ++ drop (length r) buf) <$> fb).
Proof.
  intros Hlen. destruct fb as [buf|]; simpl in *.
  - pose proof (copy_iter r [] (take (length r) buf) (drop (length r) buf))
      as Hcopy.
    simpl in Hcopy. rewrite take_drop in Hcopy. apply Hcopy.
    rewrite length_take. lia.
  - by destruct r; [|simpl in *; lia].
Qed.

End Returns.

Section SortReturns.
Context {Payload : Type} (site0 : @Bank Payload).
Implicit Types (s : @Bank Payload) (st : @State Payload).
Import Int64 Int64Facts.

Lemma sort_guard_returns st :
  progeny_per_particle st = [] → sort_fission_bank site0 st = Ok st.
Proof. intros Hk. unfold sort_fission_bank. by rewrite Hk. Qed.

(** The state a run with live region [r] leaves. *)
Lemma sorted_state_cells st (r : list (@Bank Payload)) offsets :
  Z.of_nat (length r) = fission_bank_length st →
  (length r ≤ length (bank_cells st))%nat →
  bank_cells (set_fission_bank
                ((λ buf, r ++ drop (length r) buf) <$> fission_bank st)
                (set_progeny_per_particle offsets st))
  = r ++ drop (length r) (bank_cells st) ∧
  live_sites (set_fission_bank
                ((λ buf, r ++ drop (length r) buf) <$> fission_bank st)
                (set_progeny_per_particle offsets st)) = r.
Proof.
  intros Hr Hlen.
  assert (bank_cells (set_fission_bank
                ((λ buf, r ++ drop (length r) buf) <$> fission_bank st)
                (set_progeny_per_particle offsets st))
          = r ++ drop (length r) (bank_cells st)) as Hcells.
  { unfold bank_cells in *. simpl.
    destruct (fission_bank st); simpl in *; [done|].
    by destruct r; [|simpl in *; lia]. }
  split; [done|]. unfold live_sites. rewrite Hcells. simpl.
  rewrite <-Hr, Nat2Z.id. apply take_app_length.
Qed.

(** A run on a non-empty counter vector that returns: the live region [r]
    it leaves, and what the loops needed on the way. *)
Lemma sort_returns_run st st' :
  progeny_per_particle st ≠ [] →
  sort_fission_bank site0 st = Ok st' →
  ∃ r,
    st' = set_fission_bank
            ((λ buf, r ++ drop (length r) buf) <$> fission_bank st)
            (set_progeny_per_particle
               (exclusive_scan (progeny_per_particle st)) st) ∧
    Z.of_nat (length r) = fission_bank_length st ∧
    (length r ≤ length (bank_cells st))%nat ∧
    Forall (λ x, x = site0 ∨ x ∈ live_sites st) r ∧
    Forall (in_bounds (exclusive_scan (progeny_per_particle st))
              (fission_bank_length st)) (live_sites st).
Proof.
  intros Hne Hrun. unfold sort_fission_bank in Hrun.
  rewrite decide_False in Hrun by (by intros ?%nil_length_inv).
  rewrite scan_loop_exclusive_scan, res_bind_Ok in Hrun by done.
  cbn [fission_bank_length fission_bank set_progeny_per_particle] in Hrun.
  apply res_bind_inv in Hrun as (sorted0 & Halloc & Hrun).
  unfold vec_alloc in Halloc. case_decide as Hlen; [|done].
  injection Halloc as <-.
  apply res_bind_inv in Hrun as (r & Hscatter & Hrun).
  apply res_bind_inv in Hrun as (fb' & Hcopy & Hret).
  injection Hret as <-.
  unfold for_loop in Hscatter, Hcopy. rewrite Z.sub_0_r in Hscatter, Hcopy.
  apply scatter_returns in Hscatter as (Hr & Hall & Hbounds);
    [|by rewrite length_replicate].
  fold (bank_cells st) in Hall, Hbounds.
  assert (length r ≤ length (bank_cells st))%nat as Hfit.
  { rewrite Hr.
    destruct (decide (Z.to_nat (fission_bank_length st)
                      ≤ length (bank_cells st))%nat) as [|Hover]; [done|].
    destruct (Hbounds (length (bank_cells st))) as (s & Hs & _); [lia|].
    apply lookup_lt_Some in Hs. lia. }
  rewrite <-Hr, copy_loop_returns in Hcopy by done.
  injection Hcopy as <-.
  exists r. split_and!; [done|lia|done| |].
  - eapply Forall_impl; [exact Hall|]. intros x [Hx|Hx]; [left|by right].
    by apply elem_of_replicate in Hx as [-> _].
  - apply Forall_forall. intros s Hs.
    apply elem_of_take in Hs as (j & Hj & Hlt).
    destruct (Hbounds j Hlt) as (s' & Hs' & Hin).
    rewrite Z2Nat.id in Hin by done. congruence.
Qed.

(** X1.  Whatever the bank and the counters hold, a sort that returns has
    replaced the counters by their exclusive scan and has left
    [fission_bank_length], [fission_bank_max], the source bank,
    [work_per_rank] and the message as they were; the bank pointer is null
    exactly if it was, the array has the size it had, and the cells at or
    beyond [fission_bank_length] hold what they held. *)
Theorem sort_returns_frame st st' :
  sort_fission_bank site0 st = Ok st' →
  progeny_per_particle st' = exclusive_scan (progeny_per_particle st) ∧
  fission_bank_length st' = fission_bank_length st ∧
  fission_bank_max st' = fission_bank_max st ∧
  source_bank st' = source_bank st ∧
  work_per_rank st' = work_per_rank st ∧
  errmsg st' = errmsg st ∧
  (fission_bank st' = None ↔ fission_bank st = None) ∧
  length (bank_cells st') = length (bank_cells st) ∧
  (∀ i : nat, fission_bank_length st ≤ Z.of_nat i →
     bank_cells st' !! i = bank_cells st !! i).
Proof.
  intros Hrun.
  destruct (decide (progeny_per_particle st = [])) as [Hk|Hk].
  - rewrite (sort_guard_returns st Hk) in Hrun.
    injection Hrun as <-. rewrite Hk. by split_and!.
  - destruct (sort_returns_run st st' Hk Hrun) as (r & -> & Hr & Hfit & _ & _).
    destruct (sorted_state_cells st r
                (exclusive_scan (progeny_per_particle st)) Hr Hfit)
      as [Hcells _].
    rewrite Hcells. simpl. split_and!; try done.
    + destruct (fission_bank st); naive_solver.
    + rewrite length_app, length_drop. lia.
    + intros i Hi. rewrite lookup_app_r by lia.
      rewrite lookup_drop. f_equal. lia.
Qed.

(** X2.  A sort that returns invents no site: every site of the live region
    it leaves is a site of the live region it found, or the
    value-initialised site that fills the scratch vector. *)
Theorem sort_returns_no_new_sites st st' :
  sort_fission_bank site0 st = Ok st' →
  Forall (λ x, x = site0 ∨ x ∈ live_sites st) (live_sites st').
Proof.
  intros Hrun.
  destruct (decide (progeny_per_particle st = [])) as [Hk|Hk].
  - rewrite (sort_guard_returns st Hk) in Hrun.
    injection Hrun as <-. apply Forall_forall. intros x Hx. by right.
  - destruct (sort_returns_run st st' Hk Hrun) as (r & -> & Hr & Hfit & Hall & _).
    destruct (sorted_state_cells st r
                (exclusive_scan (progeny_per_particle st)) Hr Hfit)
      as [_ Hlive].
    by rewrite Hlive.
Qed.

(** X3.  On a non-empty counter vector the sort returns exactly when the
    live region lies inside the array and every live site is in bounds:
    [parent_id - 1] indexes the scanned counters and the index computed
    from the offset lies in [[0, fission_bank_length)].  Otherwise it
    faults. *)
Theorem sort_returns_iff_in_bounds st :
  progeny_per_particle st ≠ [] →
  (∃ st', sort_fission_bank site0 st = Ok st') ↔
  0 ≤ fission_bank_length st ≤ Z.of_nat (length (bank_cells st)) ∧
  Forall (in_bounds (exclusive_scan (progeny_per_particle st))
            (fission_bank_length st)) (live_sites st).
Proof.
  intros Hne. split.
  - intros [st' Hrun].
    destruct (sort_returns_run st st' Hne Hrun) as (r & _ & Hr & Hfit & _ & Hin).
    split; [lia|done].
  - intros [Hlen Hin]. unfold sort_fission_bank.
    rewrite decide_False by (by intros ?%nil_length_inv).
    rewrite scan_loop_exclusive_scan, res_bind_Ok by done.
    cbn [fission_bank_length fission_bank set_progeny_per_particle].
    unfold vec_alloc. rewrite decide_True, res_bind_Ok by lia.
    unfold for_loop. rewrite Z.sub_0_r.
    destruct (scatter_in_bounds_returns (fission_bank st)
                (exclusive_scan (progeny_per_particle st))
                (Z.to_nat (fission_bank_length st))
                (replicate (Z.to_nat (fission_bank_length st)) site0))
      as (r & Hscatter & Hr).
    + by rewrite length_replicate.
    + fold (bank_cells st). lia.
    + rewrite Z2Nat.id by lia. exact Hin.
    + rewrite Hscatter, res_bind_Ok, <-Hr.
      rewrite copy_loop_returns by (fold (bank_cells st); lia).
      by eexists.
Qed.

End SortReturns.

(** ** The scan on its own *)

Section ScanFacts.
Import Int64 Int64Facts.

Lemma wrap_shift z k : wrap (z + 2 ^ 64 * k) = wrap z.
Proof.
  unfold wrap. f_equal.
  replace (z + 2 ^ 64 * k + 2 ^ 63) with (z + 2 ^ 63 + k * 2 ^ 64) by lia.
  apply Z_mod_plus_full.
Qed.

Lemma wrap_eqm z : ∃ k, wrap z = z + 2 ^ 64 * k.
Proof.
  exists (- ((z + 2 ^ 63) / 2 ^ 64)). unfold wrap.
  rewrite Z.mod_eq by lia. lia.
Qed.

Lemma sub_wrap a b : sub (wrap a) (wrap b) = wrap (a - b).
Proof.
  unfold sub. destruct (wrap_eqm a) as [ka ->]. destruct (wrap_eqm b) as [kb ->].
  replace (a + 2 ^ 64 * ka - (b + 2 ^ 64 * kb))
    with (a - b + 2 ^ 64 * (ka - kb)) by lia.
  apply wrap_shift.
Qed.

Lemma sum_take_S l (i : nat) c :
  l !! i = Some c → sum (take (S i) l) = sum (take i l) + c.
Proof.
  intros Hi. rewrite (take_S_r _ _ _ Hi), sum_app. simpl. lia.
Qed.

Lemma sum_take_mono l (i j : nat) :
  Forall (λ c, 0 ≤ c) l → (i ≤ j)%nat → sum (take i l) ≤ sum (take j l).
Proof.
  intros Hl Hij.
  replace (take i l) with (take i (take j l))
    by (rewrite take_take; f_equal; lia).
  apply sum_take_le. by apply Forall_take.
Qed.

Lemma scan_loop_inv l offsets :
  scan_loop l = Ok offsets → l ≠ [] ∧ offsets = exclusive_scan l.
Proof.
  intros Hrun. destruct l as [|x l]; [done|]. split; [done|].
  rewrite scan_loop_exclusive_scan in Hrun by done. congruence.
Qed.

(** X4.  A scan that returns keeps the number of entries and starts with
    [0], and the difference of two neighbouring offsets, taken in 64 bits,
    is the count between them: the offsets give every count back but the
    last, overflow or not. *)
Theorem scan_loop_differences l offsets :
  scan_loop l = Ok offsets →
  length offsets = length l ∧
  offsets !! 0%nat = Some 0 ∧
  (∀ (i : nat) a b c,
     offsets !! i = Some a → offsets !! S i = Some b → l !! i = Some c →
     in_range c → sub b a = c).
Proof.
  intros Hrun. apply scan_loop_inv in Hrun as [Hne ->].
  split_and!.
  - unfold exclusive_scan. apply length_exclusive_scan_from.
  - by destruct l.
  - intros i a b c Ha Hb Hc Hfit.
    pose proof (lookup_lt_Some _ _ _ Hb) as Hlt.
    unfold exclusive_scan in Hlt. rewrite length_exclusive_scan_from in Hlt.
    rewrite lookup_exclusive_scan in Ha, Hb by lia.
    injection Ha as <-. injection Hb as <-.
    rewrite sub_wrap, (sum_take_S _ _ _ Hc).
    replace (sum (take i l) + c - sum (take i l)) with c by lia.
    by apply wrap_id.
Qed.

(** X5.  When no count is negative and their sum fits in 64 bits, a scan
    that returns gives the integer prefix sums, and these never decrease:
    they start at [0] and stay at or below the total. *)
Theorem scan_loop_monotone l offsets :
  scan_loop l = Ok offsets →
  Forall (λ c, 0 ≤ c) l → in_range (sum l) →
  offsets = prefix_sums l ∧
  (∀ (i j : nat) a b,
     (i ≤ j)%nat → offsets !! i = Some a → offsets !! j = Some b →
     0 ≤ a ∧ a ≤ b ∧ b ≤ sum l).
Proof.
  intros Hrun Hnn Hfit. apply scan_loop_inv in Hrun as [Hne ->].
  assert (∀ i : nat, in_range (sum (take i l))) as Hprefix.
  { intros i. pose proof (sum_take_le l i Hnn).
    unfold in_range, min_int, max_int in *. lia. }
  split.
  - rewrite exclusive_scan_prefix_sums.
    rewrite <-(list_fmap_id (prefix_sums l)) at 2.
    apply list_fmap_ext. intros i x Hx. apply wrap_id.
    unfold prefix_sums in Hx. apply list_lookup_fmap_Some in Hx as (k & -> & _).
    apply Hprefix.
  - intros i j a b Hij Ha Hb.
    pose proof (lookup_lt_Some _ _ _ Ha) as Hi.
    pose proof (lookup_lt_Some _ _ _ Hb) as Hj.
    unfold exclusive_scan in Hi, Hj.
    rewrite length_exclusive_scan_from in Hi, Hj.
    rewrite lookup_exclusive_scan in Ha, Hb by done.
    rewrite wrap_id in Ha, Hb by apply Hprefix.
    injection Ha as <-. injection Hb as <-.
    pose proof (sum_take_le l i Hnn). pose proof (sum_take_le l j Hnn).
    pose proof (sum_take_mono l i j Hnn Hij). lia.
Qed.

End ScanFacts.

(** ** The sort and the accessors around the lifecycle calls *)

Section Lifecycle.
Context {Payload : Type} (site0 : @Bank Payload) (OPENMC_E_ALLOCATE : Z).
Implicit Types (s : @Bank Payload) (st : @State Payload).

Lemma sort_zero_length st :
  fission_bank_length st = 0 →
  sort_fission_bank site0 st
  = Ok (set_progeny_per_particle
          (exclusive_scan (progeny_per_particle st)) st).
Proof.
  intros Hlen. unfold sort_fission_bank. case_decide as Hk.
  - apply nil_length_inv in Hk.
    destruct st; simpl in *. by subst.
  - rewrite scan_loop_exclusive_scan by (intros E; by rewrite E in Hk).
    rewrite res_bind_Ok.
    cbn [fission_bank_length fission_bank set_progeny_per_particle].
    rewrite Hlen. by destruct st.
Qed.

Lemma init_fission_bank_inv max st st' :
  init_fission_bank site0 max st = Ok st' →
  0 ≤ max ∧ 0 ≤ work_per_rank st ∧
  fission_bank st' = Some (replicate (Z.to_nat max) site0) ∧
  fission_bank_length st' = 0.
Proof.
  unfold init_fission_bank, vec_alloc, vec_resize. simpl.
  repeat case_decide; simpl; try done. intros [= <-]. done.
Qed.

(** X6.  With nothing banked the sort reads and writes no cell of the
    fission bank, null pointer or not: it returns with the counters scanned
    and everything else as it was.  So it returns after [free_memory_bank]
    and right after an [init_fission_bank] that returned. *)
Theorem sort_with_nothing_banked :
  (∀ st, fission_bank_length st = 0 →
     sort_fission_bank site0 st
     = Ok (set_progeny_per_particle
             (exclusive_scan (progeny_per_particle st)) st)) ∧
  (∀ st,
     sort_fission_bank site0 (free_memory_bank st)
     = Ok (set_progeny_per_particle
             (exclusive_scan (progeny_per_particle st)) (free_memory_bank st))) ∧
  (∀ max st st1, init_fission_bank site0 max st = Ok st1 →
     sort_fission_bank site0 st1
     = Ok (set_progeny_per_particle
             (exclusive_scan (progeny_per_particle st1)) st1)).
Proof.
  split_and!.
  - apply sort_zero_length.
  - intros st. by rewrite sort_zero_length.
  - intros max st st1 Hinit. apply sort_zero_length.
    by apply init_fission_bank_inv in Hinit as (_ & _ & _ & ?).
Qed.

(** X7.  [openmc_fission_bank] looks at the length, not at the pointer:
    right after an [init_fission_bank] that returned, the bank is
    allocated and the accessor still returns [OPENMC_E_ALLOCATE] with the
    message that it has not been allocated, and leaves the outputs.  After
    [free_memory_bank] both accessors return [OPENMC_E_ALLOCATE]. *)
Theorem accessors_after_lifecycle out :
  (∀ max st st', init_fission_bank site0 max st = Ok st' →
     fission_bank_get st' = FissionBankData ∧
     openmc_fission_bank OPENMC_E_ALLOCATE st' out
     = (OPENMC_E_ALLOCATE,
        set_errmsg "Fission bank has not been allocated." st', out)) ∧
  (∀ st,
     openmc_source_bank OPENMC_E_ALLOCATE (free_memory_bank st) out
     = (OPENMC_E_ALLOCATE,
        set_errmsg "Source bank has not been allocated." (free_memory_bank st),
        out) ∧
     openmc_fission_bank OPENMC_E_ALLOCATE (free_memory_bank st) out
     = (OPENMC_E_ALLOCATE,
        set_errmsg "Fission bank has not been allocated." (free_memory_bank st),
        out)).
Proof.
  split.
  - intros max st st' Hinit.
    apply init_fission_bank_inv in Hinit as (_ & _ & Hfb & Hlen).
    unfold fission_bank_get, openmc_fission_bank. rewrite Hfb, Hlen. done.
  - intros st. done.
Qed.

End Lifecycle.

(** ** The order of the sorted bank *)

Section SortedOrder.
Context {Payload : Type} (site0 : @Bank Payload).
Implicit Types (s : @Bank Payload) (st : @State Payload).
Implicit Types (sites : list (@Bank Payload)) (counts : list Z).
Import Int64 Int64Facts.

(** A smaller destination means an earlier parent, or the same parent and
    a smaller progeny number. *)
Lemma canonical_dest_lt sites counts s1 s2 :
  lineage_invariant sites counts → s1 ∈ sites → s2 ∈ sites →
  canonical_dest counts s1 < canonical_dest counts s2 →
  lineage_lt s1 s2.
Proof.
  intros Hinv Hs1 Hs2 Hlt.
  pose proof (lineage_counts_nonneg _ _ Hinv) as Hnn.
  destruct (lineage_site_range _ _ s1 Hinv Hs1) as [Hp1 (c1 & Hc1 & Hj1)].
  destruct (lineage_site_range _ _ s2 Hinv Hs2) as [Hp2 (c2 & Hc2 & Hj2)].
  unfold canonical_dest, canonical_index, lineage_lt in *.
  destruct (Z.lt_trichotomy (parent_id s1) (parent_id s2)) as [Hp|[Hp|Hp]].
  - by left.
  - right. rewrite Hp in Hlt. lia.
  - exfalso.
    pose proof (sum_take_S _ _ _ Hc2) as Hnext.
    pose proof (sum_take_mono counts (S (Z.to_nat (parent_id s2 - 1)))
                  (Z.to_nat (parent_id s1 - 1)) Hnn ltac:(lia)).
    lia.
Qed.

(** After the sort of a ready state, the site at an index of the live
    region is the live site with that destination. *)
Lemma sorted_site_at st st' (d : nat) s :
  sort_ready st →
  length (live_sites st') = length (live_sites st) →
  (∀ s, s ∈ live_sites st →
     live_sites st' !! Z.to_nat (canonical_dest (progeny_per_particle st) s)
     = Some s) →
  live_sites st' !! d = Some s →
  s ∈ live_sites st ∧ canonical_dest (progeny_per_particle st) s = Z.of_nat d.
Proof.
  intros Hready Hlen Hin Hd.
  pose proof (canonical_dest_layout _ _ (ready_lineage st Hready)) as Hlayout.
  destruct (lineage_length _ _ (ready_lineage st Hready)) as [_ Hsum].
  assert (Z.of_nat d ∈ canonical_dest (progeny_per_particle st) <$> live_sites st)
    as Hdest.
  { rewrite Hlayout, <-Hsum, <-Hlen. apply elem_of_seqZ.
    apply lookup_lt_Some in Hd. lia. }
  apply list_elem_of_fmap in Hdest as (t & Ht & Hlive).
  pose proof (Hin t Hlive) as Hat. rewrite <-Ht, Nat2Z.id in Hat.
  assert (s = t) as -> by congruence. done.
Qed.

(** X8.  After the sort of a ready state the live region is in order:
    a site at a smaller index has an earlier parent than a site at a larger
    index, or the same parent and a smaller progeny number. *)
Theorem sort_output_ordered st :
  sort_ready st →
  ∃ st',
    sort_fission_bank site0 st = Ok st' ∧
    (∀ (d1 d2 : nat) s1 s2,
       (d1 < d2)%nat →
       live_sites st' !! d1 = Some s1 → live_sites st' !! d2 = Some s2 →
       lineage_lt s1 s2).
Proof.
  intros Hready.
  destruct (sort_ready_result site0 st Hready)
    as (st' & Hrun & _ & _ & _ & _ & _ & _ & _ & _ & Hlen & Hin).
  exists st'. split; [done|].
  intros d1 d2 s1 s2 Hlt H1 H2.
  destruct (sorted_site_at st st' d1 s1 Hready Hlen Hin H1) as [Hs1 Hd1].
  destruct (sorted_site_at st st' d2 s2 Hready Hlen Hin H2) as [Hs2 Hd2].
  apply (canonical_dest_lt (live_sites st) (progeny_per_particle st));
    [by apply Hready|done..|lia].
Qed.

(** X9.  A sorted bank is a fixed point: after the sort of a ready state,
    putting the counts back and sorting again returns the very same state,
    sorted bank and offsets. *)
Theorem sort_sorted_bank_fixed st :
  sort_ready st →
  ∃ st',
    sort_fission_bank site0 st = Ok st' ∧
    sort_fission_bank site0
      (set_progeny_per_particle (progeny_per_particle st) st') = Ok st'.
Proof.
  intros Hready. pose proof Hready as [Htyped Hlength Hinv].
  destruct (sort_ready_run site0 st Hready) as (r & Hrun & Hr & Hin).
  pose proof (live_sites_length st Hlength) as Hn.
  pose proof (canonical_dest_layout _ _ Hinv) as Hlayout.
  destruct (lineage_length _ _ Hinv) as [_ Hsum].
  rewrite <-Hsum, Hn, <-Hr in Hlayout.
  pose proof (placed_Permutation site0 _ _ _ Hlayout Hin) as Hperm.
  assert (length r ≤ length (bank_cells st))%nat as Hfit by lia.
  eexists. split; [exact Hrun|].
  match goal with |- sort_fission_bank _ ?x = _ => set (st2 := x) end.
  assert (bank_cells st2 = r ++ drop (length r) (bank_cells st)) as Hcells.
  { apply (sorted_state_cells st r _ Hr Hfit). }
  assert (live_sites st2 = r) as Hlive.
  { apply (sorted_state_cells st r _ Hr Hfit). }
  assert (sort_ready st2) as Hready2.
  { split.
    - destruct Htyped as (? & ? & ? & ? & ? & Hcells_typed).
      split_and!; try done. rewrite Hcells. apply Forall_app. split.
      + rewrite Hperm. by apply Forall_take.
      + by apply Forall_drop.
    - rewrite Hcells, length_app, length_drop.
      change (fission_bank_length st2) with (fission_bank_length st). lia.
    - rewrite Hlive.
      change (progeny_per_particle st2) with (progeny_per_particle st).
      by apply (lineage_Permutation (live_sites st)). }
  destruct (sort_ready_run site0 st2 Hready2) as (r2 & Hrun2 & Hr2 & Hin2).
  rewrite Hlive in Hin2.
  change (progeny_per_particle st2) with (progeny_per_particle st) in Hin2, Hrun2.
  change (fission_bank_length st2) with (fission_bank_length st) in Hr2.
  assert (r = r2) as <-.
  { apply (placed_unique (canonical_dest (progeny_per_particle st))
             (live_sites st) r); [done|done|lia|done..]. }
  rewrite Hrun2. f_equal. subst st2.
  destruct st as [sb [buf|] len mx ppp w e]; simpl; [|done].
  by rewrite drop_app_length.
Qed.

End SortedOrder.

(** ** A fresh bank and the sort *)

Section InitReady.
Context {Payload : Type} (site0 : @Bank Payload).
Implicit Types (s : @Bank Payload) (st : @State Payload).
Import Int64 Int64Facts.

Lemma lineage_invariant_nil counts :
  lineage_invariant (@nil (@Bank Payload)) counts ↔ Forall (λ c, c = 0) counts.
Proof.
  unfold lineage_invariant, progeny_ids_of. rewrite Forall_lookup. split.
  - intros [_ Hprog] i c Hi. destruct (Hprog i c Hi) as [Hc Hperm].
    apply Permutation_length in Hperm.
    rewrite length_seqZ in Hperm. simpl in Hperm. lia.
  - intros Hzero. split; [by intros s ?%not_elem_of_nil|].
    intros i c Hi. by rewrite (Hzero i c Hi).
Qed.

(** X10.  After an [init_fission_bank] that returned, on 64-bit values,
    nothing is banked, and the state is ready for the sort exactly when
    every counter is zero: counters that [resize] kept from an earlier
    generation break the lineage invariant of the empty bank. *)
Theorem init_fission_bank_ready_iff max st st' :
  bank_typed site0 → state_typed st → in_range max →
  init_fission_bank site0 max st = Ok st' →
  live_sites st' = [] ∧
  (sort_ready st' ↔ Forall (λ c, c = 0) (progeny_per_particle st')).
Proof.
  intros Hsite0 (Hlen & Hmax & Hw & Hppp & Hsb & Hcells) Hmax' Hinit.
  unfold init_fission_bank, vec_alloc, vec_resize in Hinit. simpl in Hinit.
  repeat case_decide; simpl in Hinit; try done. injection Hinit as <-.
  split; [done|]. split.
  - intros [_ _ Hinv]. by apply lineage_invariant_nil in Hinv.
  - intros Hzero. split.
    + unfold state_typed, bank_cells. simpl. split_and!; try done.
      * eapply Forall_impl; [exact Hzero|]. by intros c ->.
      * by apply Forall_replicate.
    + unfold bank_cells. simpl. rewrite length_replicate. lia.
    + by apply lineage_invariant_nil.
Qed.

End InitReady.

(** ** Composing the lifecycle calls *)

Section Compose.
Context {Payload : Type} (site0 : @Bank Payload).
Implicit Types (s : @Bank Payload) (st : @State Payload).
Import Int64 Int64Facts.

Lemma resize_resize {A} (v : list A) (n : nat) (x : A) :
  take n (take n v ++ replicate (n - length v) x)
  ++ replicate (n - length (take n v ++ replicate (n - length v) x)) x
  = take n v ++ replicate (n - length v) x.
Proof.
  assert (length (take n v ++ replicate (n - length v) x) = n) as Hlen
    by (rewrite length_app, length_take, length_replicate; lia).
  rewrite take_ge, Hlen, Nat.sub_diag by lia. simpl. by rewrite app_nil_r.
Qed.

(** X11.  The last [init_fission_bank] wins: after one that returned, a
    second one, with any capacity, gives what it would have given in place
    of the first.  In particular two calls with the same capacity give
    what one call gives. *)
Theorem init_fission_bank_last_wins max1 max2 st st1 :
  init_fission_bank site0 max1 st = Ok st1 →
  init_fission_bank site0 max2 st1 = init_fission_bank site0 max2 st.
Proof.
  intros Hinit.
  unfold init_fission_bank, vec_alloc, vec_resize in Hinit. simpl in Hinit.
  repeat case_decide; simpl in Hinit; try done. injection Hinit as <-.
  unfold init_fission_bank, vec_alloc, vec_resize. simpl.
  repeat case_decide; simpl; try done. by rewrite resize_resize.
Qed.

End Compose.

#[global] Instance in_bounds_dec {Payload : Type} offsets len
  (s : @Bank Payload) : Decision (in_bounds offsets len s).
Proof.
  unfold in_bounds.
  destruct (vec_get offsets (Int64.sub (parent_id s) 1)); apply _.
Defined.

(** ** The further properties on concrete banks *)

Lemma sort_returns_frame_witness :
  sort_fission_bank site0Z clash_ab
  = Ok (mkState [] (Some [mkBank 1 0 8; site0Z]) 2 2 [0] 1 "") ∧
  bank_cells (mkState [] (Some [mkBank 1 0 8; site0Z]) 2 2 [0] 1 "") !! 2%nat
  = bank_cells clash_ab !! 2%nat.
Proof.
  assert (sort_fission_bank site0Z clash_ab
          = Ok (mkState [] (Some [mkBank 1 0 8; site0Z]) 2 2 [0] 1 "")) as Hrun
    by (vm_compute; reflexivity).
  split; [exact Hrun|].
  destruct (sort_returns_frame site0Z clash_ab _ Hrun)
    as (_ & _ & _ & _ & _ & _ & _ & _ & Htail).
  apply Htail. vm_compute. discriminate.
Defined.

Lemma sort_returns_no_new_sites_witness :
  sort_fission_bank site0Z clash_ab
  = Ok (mkState [] (Some [mkBank 1 0 8; site0Z]) 2 2 [0] 1 "") ∧
  Forall (λ x, x = site0Z ∨ x ∈ live_sites clash_ab)
    [mkBank 1 0 8; site0Z].
Proof.
  assert (sort_fission_bank site0Z clash_ab
          = Ok (mkState [] (Some [mkBank 1 0 8; site0Z]) 2 2 [0] 1 "")) as Hrun
    by (vm_compute; reflexivity).
  split; [exact Hrun|].
  exact (sort_returns_no_new_sites site0Z clash_ab _ Hrun).
Defined.

(** A bank whose only site names source particle 2 of 1: the read of the
    offsets is out of range and the sort faults. *)
Lemma sort_returns_iff_in_bounds_witness :
  progeny_per_particle clash_ab ≠ [] ∧
  (∃ st', sort_fission_bank site0Z clash_ab = Ok st') ∧
  ¬ (∃ st', sort_fission_bank site0Z
              (mkState [] (Some [mkBank 2 0 7]) 1 1 [1] 1 "") = Ok st').
Proof.
  assert (progeny_per_particle clash_ab ≠ []) as Hne by discriminate.
  split; [exact Hne|]. split.
  - apply (sort_returns_iff_in_bounds site0Z clash_ab Hne).
    apply (bool_decide_unpack _). vm_compute. exact I.
  - intros Hrun.
    apply (sort_returns_iff_in_bounds site0Z
             (mkState [] (Some [mkBank 2 0 7]) 1 1 [1] 1 "")) in Hrun;
      [|discriminate].
    destruct Hrun as [_ Hin].
    apply (Forall_lookup_1 _ _ 0%nat (mkBank 2 0 7)) in Hin; [|reflexivity].
    exact Hin.
Defined.

Lemma scan_loop_differences_witness :
  scan_loop [2; 0; 1] = Ok [0; 2; 2] ∧
  Int64.in_range 2 ∧ Int64.sub 2 0 = 2.
Proof.
  assert (scan_loop [2; 0; 1] = Ok [0; 2; 2]) as Hrun by (vm_compute; reflexivity).
  assert (Int64.in_range 2) as Hfit
    by (apply (bool_decide_unpack _); vm_compute; exact I).
  split; [exact Hrun|]. split; [exact Hfit|].
  destruct (scan_loop_differences [2; 0; 1] [0; 2; 2] Hrun) as (_ & _ & Hdiff).
  exact (Hdiff 0%nat 0 2 2 eq_refl eq_refl eq_refl Hfit).
Defined.

Lemma scan_loop_monotone_witness :
  scan_loop [2; 0; 1] = Ok [0; 2; 2] ∧
  Forall (λ c, 0 ≤ c) [2; 0; 1] ∧ Int64.in_range (Int64.sum [2; 0; 1]) ∧
  [0; 2; 2] = prefix_sums [2; 0; 1].
Proof.
  assert (scan_loop [2; 0; 1] = Ok [0; 2; 2]) as Hrun by (vm_compute; reflexivity).
  assert (Forall (λ c, 0 ≤ c) [2; 0; 1]) as Hnn
    by (apply (bool_decide_unpack _); vm_compute; exact I).
  assert (Int64.in_range (Int64.sum [2; 0; 1])) as Hfit
    by (apply (bool_decide_unpack _); vm_compute; exact I).
  split; [exact Hrun|]. split; [exact Hnn|]. split; [exact Hfit|].
  exact (proj1 (scan_loop_monotone [2; 0; 1] [0; 2; 2] Hrun Hnn Hfit)).
Defined.

Lemma sort_with_nothing_banked_witness :
  fission_bank_length sourced = 0 ∧
  sort_fission_bank site0Z sourced = Ok sourced ∧
  sort_fission_bank site0Z (free_memory_bank scenario)
  = Ok (mkState [] None 0 4 [0; 2; 2] 3 "") ∧
  init_fission_bank site0Z 2 sourced
  = Ok (mkState (source_bank sourced) (Some [site0Z; site0Z]) 0 2 [0; 0] 2 "") ∧
  sort_fission_bank site0Z
    (mkState (source_bank sourced) (Some [site0Z; site0Z]) 0 2 [0; 0] 2 "")
  = Ok (mkState (source_bank sourced) (Some [site0Z; site0Z]) 0 2 [0; 0] 2 "").
Proof.
  destruct (sort_with_nothing_banked site0Z) as (Hzero & Hfree & Hinit).
  assert (init_fission_bank site0Z 2 sourced
          = Ok (mkState (source_bank sourced) (Some [site0Z; site0Z])
                  0 2 [0; 0] 2 "")) as Hrun by (vm_compute; reflexivity).
  split; [reflexivity|]. split; [exact (Hzero sourced eq_refl)|].
  split; [exact (Hfree scenario)|]. split; [exact Hrun|].
  exact (Hinit 2 sourced _ Hrun).
Defined.

Lemma accessors_after_lifecycle_witness :
  init_fission_bank site0Z 2 sourced
  = Ok (mkState (source_bank sourced) (Some [site0Z; site0Z]) 0 2 [0; 0] 2 "") ∧
  openmc_fission_bank (-2)
    (mkState (source_bank sourced) (Some [site0Z; site0Z]) 0 2 [0; 0] 2 "")
    (mkOut (Foreign 5) 9)
  = (-2,
     mkState (source_bank sourced) (Some [site0Z; site0Z]) 0 2 [0; 0] 2
       "Fission bank has not been allocated.",
     mkOut (Foreign 5) 9).
Proof.
  assert (init_fission_bank site0Z 2 sourced
          = Ok (mkState (source_bank sourced) (Some [site0Z; site0Z])
                  0 2 [0; 0] 2 "")) as Hrun by (vm_compute; reflexivity).
  split; [exact Hrun|].
  destruct (accessors_after_lifecycle site0Z (-2) (mkOut (Foreign 5) 9))
    as [Hinit _].
  exact (proj2 (Hinit 2 sourced _ Hrun)).
Defined.

Lemma sort_output_ordered_witness :
  sort_ready scenario ∧
  ∃ st', sort_fission_bank site0Z scenario = Ok st' ∧
         ∀ s1 s2, live_sites st' !! 0%nat = Some s1 →
                  live_sites st' !! 2%nat = Some s2 → lineage_lt s1 s2.
Proof.
  split; [exact scenario_ready|].
  destruct (sort_output_ordered site0Z scenario scenario_ready)
    as (st' & Hrun & Hord).
  exists st'. split; [exact Hrun|].
  intros s1 s2. apply Hord. lia.
Defined.

Lemma sort_sorted_bank_fixed_witness :
  sort_ready scenario ∧
  ∃ st', sort_fission_bank site0Z scenario = Ok st' ∧
         sort_fission_bank site0Z
           (set_progeny_per_particle (progeny_per_particle scenario) st')
         = Ok st'.
Proof.
  split; [exact scenario_ready|].
  exact (sort_sorted_bank_fixed site0Z scenario scenario_ready).
Defined.

Lemma init_fission_bank_ready_iff_witness :
  bank_typed site0Z ∧ state_typed sourced ∧ Int64.in_range 2 ∧
  init_fission_bank site0Z 2 sourced
  = Ok (mkState (source_bank sourced) (Some [site0Z; site0Z]) 0 2 [0; 0] 2 "") ∧
  sort_ready
    (mkState (source_bank sourced) (Some [site0Z; site0Z]) 0 2 [0; 0] 2 "").
Proof.
  assert (bank_typed site0Z) as H0
    by (apply (bool_decide_unpack _); vm_compute; exact I).
  assert (state_typed sourced) as Htyped
    by (apply (bool_decide_unpack _); vm_compute; exact I).
  assert (Int64.in_range 2) as Hmax
    by (apply (bool_decide_unpack _); vm_compute; exact I).
  assert (init_fission_bank site0Z 2 sourced
          = Ok (mkState (source_bank sourced) (Some [site0Z; site0Z])
                  0 2 [0; 0] 2 "")) as Hrun by (vm_compute; reflexivity).
  split; [exact H0|]. split; [exact Htyped|]. split; [exact Hmax|].
  split; [exact Hrun|].
  apply (init_fission_bank_ready_iff site0Z 2 sourced _ H0 Htyped Hmax Hrun).
  apply (bool_decide_unpack _). vm_compute. exact I.
Defined.

Lemma init_fission_bank_last_wins_witness :
  init_fission_bank site0Z 2 sourced
  = Ok (mkState (source_bank sourced) (Some [site0Z; site0Z]) 0 2 [0; 0] 2 "") ∧
  init_fission_bank site0Z 3
    (mkState (source_bank sourced) (Some [site0Z; site0Z]) 0 2 [0; 0] 2 "")
  = init_fission_bank site0Z 3 sourced.
Proof.
  assert (init_fission_bank site0Z 2 sourced
          = Ok (mkState (source_bank sourced) (Some [site0Z; site0Z])
                  0 2 [0; 0] 2 "")) as Hrun by (vm_compute; reflexivity).
  split; [exact Hrun|].
  exact (init_fission_bank_last_wins site0Z 2 3 sourced _ Hrun).
Defined.
